(** * digital-advisor: the bounded thread-pool generator and the DNS client

    A shallow embedding of

      - [digital_advisor/commands/utils/threading.py] ([threadpool_generator]),
      - [digital_advisor/commands/utils/dns.py] ([DNSClient]),

    together with the properties the specification states about them.

    The coordinator thread is the only one that touches the input cursor and
    the set of futures, so the generator is modelled as a sequential machine
    whose only non-determinism is the answer of [concurrent.futures.wait]:
    which futures are done, and in which order the returned set iterates.
    That answer is read from a schedule, and every statement quantifies over
    all schedules. *)

From Stdlib Require Import List ZArith Lia Bool Arith Permutation.
From Stdlib Require String Ascii DecimalString.
Import ListNotations String.StringSyntax Ascii.AsciiSyntax.
Delimit Scope char_scope with char.
Delimit Scope string_scope with string.
Bind Scope string_scope with String.string.

Abbreviation string := String.string.

Set Implicit Arguments.

(** ** Python values the code manipulates *)

Module Py.

(** The exception classes that can reach the code under study. *)
Inductive exn : Type :=
| OSError          (* socket.error is an alias of it *)
| gaierror         (* socket.gaierror, subclass of OSError *)
| herror           (* socket.herror, subclass of OSError *)
| ValueError
| UnicodeError     (* subclass of ValueError; raised by the idna codec *)
| TypeError.

Definition exn_eqb (a b : exn) : bool :=
  match a, b with
  | OSError, OSError | gaierror, gaierror | herror, herror
  | ValueError, ValueError | UnicodeError, UnicodeError
  | TypeError, TypeError => true
  | _, _ => false
  end.

(** Direct base class, below [Exception]. *)
Definition base (e : exn) : option exn :=
  match e with
  | gaierror | herror => Some OSError
  | UnicodeError => Some ValueError
  | OSError | ValueError | TypeError => None
  end.

(** [issubclass e c]: the hierarchy above has depth two. *)
Definition issubclass (e c : exn) : bool :=
  exn_eqb e c ||
  match base e with
  | Some b => exn_eqb b c
  | None => false
  end.

(** [except (c1, c2, ...)]: does the clause catch [e]? *)
Definition caught_by (classes : list exn) (e : exn) : bool :=
  existsb (issubclass e) classes.

(** Outcome of a call: a value, or a raised exception. *)
Inductive result (T : Type) : Type :=
| Return (v : T)
| Raise (e : exn).
Arguments Return {T} v.
Arguments Raise {T} e.

Definition returns {T} (r : result T) : bool :=
  match r with Return _ => true | Raise _ => false end.

End Py.
Import Py.

(** ** Log records

    The module-level loggers; a record per call, the numbers kept apart from
    the text they are formatted into. *)

Inductive lookup_kind := Hostnames | Addresses.

Inductive log_record : Type :=
| DebugPoolStarted (num_threads queue_length : Z)
    (* "ThreadPool started using %s threads, queue length %s" *)
| DebugPair (address : string) (hostname : option string)
    (* "%s: %s" *)
| InfoSummary (kind : lookup_kind) (num_resolved : nat) (elapsed : Z) (num_failed : nat).
    (* "{num_resolved:,} hostnames resolved in {elapsed:.2f} seconds. {num_failed:,} failed." *)

Definition is_summary (r : log_record) : bool :=
  match r with InfoSummary _ _ _ _ => true | _ => false end.

Definition count_summaries (l : list log_record) : nat :=
  length (filter is_summary l).

(** ** The answer of [concurrent.futures.wait]

    [wait(futures, return_when=FIRST_COMPLETED)] blocks until at least one
    future is done and returns the pair of sets (done, not_done).  A [pick]
    names the futures that are done, by position in the current set, the first
    one kept apart so that the answer is never empty; the order of the picks
    is the order in which the returned set is iterated. *)

Record pick := mkPick { first : nat; others : list nat }.

Section Wait.
Context {X : Type}.

Fixpoint extract (i : nat) (l : list X) {struct l} : option (X * list X) :=
  match l with
  | [] => None
  | x :: l' =>
      match i with
      | O => Some (x, l')
      | S i' =>
          match extract i' l' with
          | Some (y, r) => Some (y, x :: r)
          | None => None
          end
      end
  end.

Fixpoint select (picks : list nat) (fs : list X) : list X * list X :=
  match picks with
  | [] => ([], fs)
  | i :: picks' =>
      match extract (i mod length fs) fs with
      | None => ([], fs)
      | Some (x, rest) =>
          let (done, not_done) := select picks' rest in (x :: done, not_done)
      end
  end.

Definition wait (p : pick) (fs : list X) : list X * list X :=
  select (first p :: others p) fs.

End Wait.

(** ** threadpool_generator *)

(** A [Future] is hashed by identity: two futures for equal arguments are two
    members of the set.  [fid] is that identity, the rank of the submission. *)
Record Future (A : Type) := mkFuture { fid : nat; farg : A }.
Arguments mkFuture {A} fid farg.
Arguments fid {A} f.
Arguments farg {A} f.

(** Where the generator body stands.  The worker threads are not part of
    the state: a worker is a function of its argument, and what it returns
    or raises is read when the result of its future is retrieved. *)
Inductive pc (A : Type) : Type :=
| Created                       (* generator object made, body not started *)
| Priming (quota : nat)         (* in the comprehension over islice(args, queue_length) *)
| LoopHead                      (* at the test of `while futures:` *)
| Yielding (completed : list (Future A)) (len_completed : nat)
                                (* in `for future in completed:`, these are left *)
| Refill (quota : nat)          (* in `for arg in islice(args, len(completed)):` *)
| Finished.                     (* returned, raised, or closed *)
Arguments Created {A}.
Arguments LoopHead {A}.
Arguments Finished {A}.
Arguments Priming {A} quota.
Arguments Refill {A} quota.

(** What one resumption hands to the consumer; [Tau] is an internal move. *)
Inductive event (R : Type) : Type :=
| Tau
| Yield (r : R)
| StopIteration
| Raised (e : exn).
Arguments Tau {R}.
Arguments StopIteration {R}.
Arguments Yield {R} r.
Arguments Raised {R} e.

Definition is_tau {R} (ev : event R) : bool :=
  match ev with Tau => true | _ => false end.

Record generator (A R I : Type) := mkGen {
  (* arguments *)
  num_threads : option Z;            (* None is Python's None *)
  function : A -> result R;
  args : I;
  (* locals *)
  queue_length : Z;
  futures : list (Future A);
  at_pc : pc A;
  (* the executor and the environment *)
  submitted : nat;                   (* calls of executor.submit so far *)
  waits : nat;                       (* calls of concurrent.futures.wait so far *)
  (* history *)
  consumed : nat;                    (* items pulled from args so far *)
  yielded : list R;                  (* results handed to the consumer so far *)
  log : list log_record
}.

Section Pool.
Context {A R I : Type}.

(** [next(args)]: an item and the advanced iterator, or exhaustion. *)
Variable next_arg : I -> option (A * I).

(** The schedule: the answer of the n-th call of [wait]. *)
Variable sched : nat -> pick.

Abbreviation gen := (generator A R I).

(** Calling the function only makes the generator object. *)
Definition threadpool_generator (num_threads : option Z)
    (function : A -> result R) (args : I) : gen :=
  mkGen num_threads function args 0%Z [] Created 0 0 0 [] [].

Definition set_pc (p : pc A) (g : gen) : gen :=
  mkGen (num_threads g) (function g) (args g) (queue_length g) (futures g) p
        (submitted g) (waits g) (consumed g) (yielded g) (log g).

(** [queue_length = num_threads * 2] and the [logger.debug] call. *)
Definition start (n : Z) (g : gen) : gen :=
  mkGen (num_threads g) (function g) (args g) (n * 2)%Z (futures g) (at_pc g)
        (submitted g) (waits g) (consumed g) (yielded g)
        (log g ++ [DebugPoolStarted n (n * 2)%Z]).

(** One item pulled from [args] and [executor.submit(function, arg)] added
    to [futures]. *)
Definition submit (a : A) (rest : I) (p : pc A) (g : gen) : gen :=
  mkGen (num_threads g) (function g) rest (queue_length g)
        (futures g ++ [mkFuture (submitted g) a]) p
        (S (submitted g)) (waits g) (S (consumed g)) (yielded g) (log g).

(** [completed, futures = wait(futures, ...)]. *)
Definition waited (completed not_done : list (Future A)) (g : gen) : gen :=
  mkGen (num_threads g) (function g) (args g) (queue_length g) not_done
        (Yielding completed (length completed))
        (submitted g) (S (waits g)) (consumed g) (yielded g) (log g).

(** [yield future.result()] when the result is a value. *)
Definition yield_ (r : R) (p : pc A) (g : gen) : gen :=
  mkGen (num_threads g) (function g) (args g) (queue_length g) (futures g) p
        (submitted g) (waits g) (consumed g) (yielded g ++ [r]) (log g).

(** [islice(args, quota)], one item at a time: [continue_] is where the
    loop stands after an item, [LoopHead] follows the loop. *)
Definition islice_step (quota : nat) (continue_ : nat -> pc A) (g : gen)
  : event R * gen :=
  match quota with
  | O => (Tau, set_pc LoopHead g)
  | S quota' =>
      match next_arg (args g) with
      | None => (Tau, set_pc LoopHead g)
      | Some (a, rest) => (Tau, submit a rest (continue_ quota') g)
      end
  end.

(** One move of the generator body. *)
Definition step (g : gen) : event R * gen :=
  match at_pc g with
  | Created =>
      match num_threads g with
      | None => (Raised TypeError, set_pc Finished g)       (* None * 2 *)
      | Some n =>
          let g1 := start n g in
          (* ThreadPoolExecutor(max_workers=n): "max_workers must be
             greater than 0" *)
          if (n <=? 0)%Z then (Raised ValueError, set_pc Finished g1)
          else (Tau, set_pc (Priming (Z.to_nat (queue_length g1))) g1)
      end
  | Priming quota => islice_step quota Priming g
  | LoopHead =>
      match futures g with
      | [] => (StopIteration, set_pc Finished g)
      | _ :: _ =>
          let (completed, not_done) := wait (sched (waits g)) (futures g) in
          (Tau, waited completed not_done g)
      end
  | Yielding [] k => (Tau, set_pc (Refill k) g)
  | Yielding (future :: rest) k =>
      match function g (farg future) with
      | Return r => (Yield r, yield_ r (Yielding rest k) g)
      | Raise e => (Raised e, set_pc Finished g)
      end
  | Refill quota => islice_step quota Refill g
  | Finished => (StopIteration, g)
  end.

(** Internal moves the body can make before the next event. *)
Definition budget (g : gen) : nat :=
  match at_pc g with
  | Created =>
      match num_threads g with
      | Some n => Z.to_nat (n * 2) + 4
      | None => 1
      end
  | Priming quota | Refill quota => quota + 3
  | LoopHead => 2
  | Yielding _ k => k + 4
  | Finished => 1
  end.

Fixpoint resume (fuel : nat) (g : gen) : event R * gen :=
  match fuel with
  | O => (Tau, g)
  | S fuel' =>
      match step g with
      | (Tau, g') => resume fuel' g'
      | answer => answer
      end
  end.

(** [next(generator)]: run the body up to its next yield, return or raise. *)
Definition next (g : gen) : event R * gen := resume (budget g) g.

(** [generator.close()], also what dropping the generator does:
    GeneratorExit at the yield, the with block shuts the executor down. *)
Definition close (g : gen) : gen := set_pc Finished g.

(** How a full iteration ends. *)
Inductive ending : Type :=
| Exhausted
| Failed (e : exn)
| Unfinished.

(** [for result in generator: ...] with at most [fuel] calls of [next]. *)
Fixpoint iterate (fuel : nat) (g : gen) : list R * ending * gen :=
  match fuel with
  | O => ([], Unfinished, g)
  | S fuel' =>
      match next g with
      | (Yield r, g') =>
          match iterate fuel' g' with
          | (rs, e, g'') => (r :: rs, e, g'')
          end
      | (StopIteration, g') => ([], Exhausted, g')
      | (Raised e, g') => ([], Failed e, g')
      | (Tau, g') => ([], Unfinished, g')
      end
  end.

(** Tasks submitted to the executor and not yet yielded. *)
Definition outstanding (g : gen) : nat :=
  match at_pc g with
  | Yielding completed _ => length (futures g) + length completed
  | _ => length (futures g)
  end.

End Pool.

(** ** DNSClient *)

(** The calls of the [socket], [os] and [time] modules the client makes. *)
Record Env := mkEnv {
  socket_gethostbyname : string -> result string;
  socket_gethostbyaddr : string -> result (string * list string * list string);
  socket_getfqdn : string -> result string;
  os_cpu_count : option Z;           (* os.cpu_count() may return None *)
  time_perf_counter : nat -> Z       (* the n-th reading of the clock, in ticks *)
}.

Definition bind {T U} (m : result T) (k : T -> result U) : result U :=
  match m with
  | Return v => k v
  | Raise e => Raise e
  end.

Notation "x <- m ;; k" := (bind m (fun x => k))
  (at level 61, m at next level, right associativity).

(** [try: body except classes: handler]. *)
Definition try_except {T} (body : result T) (classes : list exn)
    (handler : exn -> result T) : result T :=
  match body with
  | Return v => Return v
  | Raise e => if caught_by classes e then handler e else Raise e
  end.

Module DNSClient.

Record self := mkSelf { num_threads : Z }.

(** [None * 4] is a TypeError. *)
Definition __init__ (env : Env) (num_threads : option Z) : result self :=
  match num_threads with
  | Some n => Return (mkSelf n)
  | None =>
      match os_cpu_count env with
      | Some cores => Return (mkSelf (cores * 4))
      | None => Raise TypeError
      end
  end.

(** The workers.  Their [logger.debug] lines are written from the worker
    threads and are not part of the log kept here. *)
Definition _gethostbyname (env : Env) (hostname : string)
  : result (string * option string) :=
  address <- try_except
               (address <- socket_gethostbyname env hostname ;;
                Return (Some address))
               [OSError]
               (fun _ => Return None) ;;
  Return (hostname, address).

Definition _gethostbyaddr (env : Env) (address : string)
  : result (string * option string) :=
  hostname <- try_except
                (answer <- socket_gethostbyaddr env address ;;
                 let '(hostname, aliaslist, ipaddrlist) := answer in
                 hostname <- socket_getfqdn env hostname ;;
                 Return (Some hostname))
                [OSError; UnicodeError]
                (fun _ => Return None) ;;
  Return (address, hostname).

(** The bodies of [lookup] and [reverse_lookup] differ in the worker, in the
    debug line of the loop and in the wording of the summary. *)
Definition worker (env : Env) (kind : lookup_kind)
  : string -> result (string * option string) :=
  match kind with
  | Hostnames => _gethostbyname env
  | Addresses => _gethostbyaddr env
  end.

(** Where the body of [lookup] stands; the local [generator] exists once
    the body has started. *)
Inductive phase (I : Type) : Type :=
| NotStarted
| InLoop (generator : generator string (string * option string) I)
| Over (generator : option (generator string (string * option string) I)).
Arguments NotStarted {I}.
Arguments InLoop {I} generator.
Arguments Over {I} generator.

Record lookup_generator (I : Type) := mkLookup {
  kind : lookup_kind;
  client : self;
  names : I;                         (* hostnames, or addresses *)
  at_phase : phase I;
  (* locals *)
  start : Z;
  num_failed : nat;
  num_resolved : nat;
  (* the environment and the history *)
  clock_reads : nat;                 (* readings of the clock so far *)
  pairs : list (string * option string);   (* pairs yielded so far *)
  info : list log_record             (* records of this module's logger *)
}.

Section Lookup.
Context {I : Type}.
Variable next_arg : I -> option (string * I).
Variable sched : nat -> pick.
Variable env : Env.

Abbreviation lgen := (lookup_generator I).
Abbreviation pool := (generator string (string * option string) I).

Definition lookup (client : self) (hostnames : I) : lgen :=
  mkLookup Hostnames client hostnames NotStarted 0%Z 0 0 0 [] [].

Definition reverse_lookup (client : self) (addresses : I) : lgen :=
  mkLookup Addresses client addresses NotStarted 0%Z 0 0 0 [] [].

Definition set_phase (p : phase I) (l : lgen) : lgen :=
  mkLookup (kind l) (client l) (names l) p (start l)
           (num_failed l) (num_resolved l) (clock_reads l) (pairs l) (info l).

(** The lines before the loop: the clock is read, the counters are zeroed and
    the generator object is made. *)
Definition enter (l : lgen) : pool * lgen :=
  let generator :=
    threadpool_generator (Some (num_threads (client l)))
                         (worker env (kind l)) (names l) in
  (generator,
   mkLookup (kind l) (client l) (names l) (InLoop generator)
            (time_perf_counter env (clock_reads l)) 0 0
            (S (clock_reads l)) (pairs l) (info l)).

(** The body of the loop for one pair. *)
Definition count (key : string) (value : option string) (g : pool) (l : lgen)
  : lgen :=
  mkLookup (kind l) (client l) (names l) (InLoop g) (start l)
           (match value with None => S (num_failed l) | Some _ => num_failed l end)
           (match value with None => num_resolved l | Some _ => S (num_resolved l) end)
           (clock_reads l) (pairs l ++ [(key, value)])
           (match kind l with
            | Hostnames => info l
            | Addresses => info l ++ [DebugPair key value]
            end).

(** The lines after the loop. *)
Definition summarise (g : pool) (l : lgen) : lgen :=
  let elapsed := (time_perf_counter env (clock_reads l) - start l)%Z in
  mkLookup (kind l) (client l) (names l) (Over (Some g)) (start l)
           (num_failed l) (num_resolved l) (S (clock_reads l)) (pairs l)
           (info l ++ [InfoSummary (kind l) (num_resolved l) elapsed (num_failed l)]).

(** [for key, value in generator:] from the head of the loop to the yield. *)
Definition loop (g : pool) (l : lgen) : event (string * option string) * lgen :=
  match next next_arg sched g with
  | (Yield (key, value), g') => (Yield (key, value), count key value g' l)
  | (StopIteration, g') => (StopIteration, summarise g' l)
  | (Raised e, g') => (Raised e, set_phase (Over (Some g')) l)
  | (Tau, g') => (Tau, set_phase (InLoop g') l)
  end.

(** [next] on the generator that [lookup] or [reverse_lookup] returned. *)
Definition lookup_next (l : lgen) : event (string * option string) * lgen :=
  match at_phase l with
  | NotStarted => let (g, l1) := enter l in loop g l1
  | InLoop g => loop g l
  | Over _ => (StopIteration, l)
  end.

(** [close] on it, which is also what dropping it does: GeneratorExit at the
    yield, and the inner generator goes with it. *)
Definition lookup_close (l : lgen) : lgen :=
  match at_phase l with
  | NotStarted => set_phase (Over None) l
  | InLoop g => set_phase (Over (Some (close g))) l
  | Over _ => l
  end.

(** Everything logged during the call, in order: the pool logs once, when
    its body starts, before any record of this module. *)
Definition logged (l : lgen) : list log_record :=
  match at_phase l with
  | InLoop g | Over (Some g) => log g ++ info l
  | NotStarted | Over None => info l
  end.

(** What the consumer does with the generator, and what it sees. *)
Inductive action := CallNext | CallClose.

Inductive seen :=
| Got (ev : event (string * option string))
| Closed.

Fixpoint consume (acts : list action) (l : lgen) : list seen * lgen :=
  match acts with
  | [] => ([], l)
  | CallNext :: acts' =>
      let (ev, l') := lookup_next l in
      let (obs, l'') := consume acts' l' in
      (Got ev :: obs, l'')
  | CallClose :: acts' =>
      let (obs, l'') := consume acts' (lookup_close l) in
      (Closed :: obs, l'')
  end.

(** The consumer drained the sequence: it took pair after pair until
    [next] told it there are no more. *)
Fixpoint drained (obs : list seen) : bool :=
  match obs with
  | Got (Yield _) :: obs' => drained obs'
  | Got StopIteration :: _ => true
  | _ => false
  end.

(** The pairs the consumer received. *)
Fixpoint received (obs : list seen) : list (string * option string) :=
  match obs with
  | [] => []
  | Got (Yield p) :: obs' => p :: received obs'
  | _ :: obs' => received obs'
  end.

End Lookup.

End DNSClient.

(** ** Inputs, points of the iteration, and the sequential reference *)

(** [next] on the iterator of a list. *)
Definition list_next {A : Type} (l : list A) : option (A * list A) :=
  match l with
  | [] => None
  | a :: rest => Some (a, rest)
  end.

(** [next] on [itertools.count()]: an input that never ends. *)
Definition count_next (n : nat) : option (nat * nat) := Some (n, S n).

Section Points.
Context {A R I : Type}.
Variable next_arg : I -> option (A * I).
Variable sched : nat -> pick.

(** The points an iteration of [g0] goes through: every move of the body,
    and the consumer may close the generator at any of them. *)
Inductive reaches (g0 : generator A R I) : generator A R I -> Prop :=
| reaches_start : reaches g0 g0
| reaches_step g : reaches g0 g -> reaches g0 (snd (step next_arg sched g))
| reaches_close g : reaches g0 g -> reaches g0 (close g).

End Points.

(** The reference: the worker applied to each input in turn, by one thread. *)
Fixpoint sequential {A R : Type} (function : A -> result R) (inputs : list A)
  : result (list R) :=
  match inputs with
  | [] => Return []
  | a :: rest =>
      r <- function a ;;
      rs <- sequential function rest ;;
      Return (r :: rs)
  end.

Definition resolved (p : string * option string) : bool :=
  match snd p with Some _ => true | None => false end.

Definition failed (p : string * option string) : bool :=
  match snd p with Some _ => false | None => true end.

(** The bookkeeping of a generator started with [num_threads = n], point by
    point: what is in flight fits the queue, and every item pulled from the
    input is in flight or was yielded. *)
Definition bounded {A R I : Type} (n : Z) (g : generator A R I) : Prop :=
  let cap := Z.to_nat (n * 2) in
  num_threads g = Some n /\
  consumed g = submitted g /\
  match at_pc g with
  | Created =>
      futures g = [] /\ consumed g = 0 /\ yielded g = []
  | Priming quota =>
      queue_length g = (n * 2)%Z /\
      length (futures g) + quota <= cap /\
      consumed g = length (futures g) /\ yielded g = []
  | Refill quota =>
      queue_length g = (n * 2)%Z /\
      length (futures g) + quota <= cap /\
      consumed g = length (yielded g) + length (futures g)
  | LoopHead =>
      queue_length g = (n * 2)%Z /\
      length (futures g) <= cap /\
      consumed g = length (yielded g) + length (futures g)
  | Yielding completed k =>
      queue_length g = (n * 2)%Z /\
      length (futures g) + k <= cap /\ length completed <= k /\
      consumed g = length (yielded g) + length (futures g) + length completed
  | Finished =>
      length (futures g) <= cap /\ consumed g <= length (yielded g) + cap
  end.

(** The inputs whose result is still owed to the consumer, for a list of
    inputs: those of the futures being yielded, those of the futures in
    flight, and those not pulled yet. *)
Definition owed {A R : Type} (g : generator A R (list A)) : list A :=
  match at_pc g with
  | Yielding completed _ => map farg completed ++ map farg (futures g) ++ args g
  | _ => map farg (futures g) ++ args g
  end.

(** The body is running and cannot leave the loop while input is left. *)
Definition live {A R : Type} (g : generator A R (list A)) : Prop :=
  match at_pc g with
  | Created => exists n, num_threads g = Some n /\ (1 <= n)%Z
  | Priming quota | Refill quota => 0 < quota \/ futures g <> [] \/ args g = []
  | LoopHead => futures g <> [] \/ args g = []
  | Yielding _ k => 0 < k
  | Finished => False
  end.

(** What an answer of the generator does to the inputs owed. *)
Definition accounts {A R : Type} (g : generator A R (list A)) (ev : event R)
    (g' : generator A R (list A)) : Prop :=
  match ev with
  | Tau =>
      live g' /\ Permutation (owed g) (owed g') /\ yielded g' = yielded g
  | Yield r =>
      live g' /\ yielded g' = yielded g ++ [r] /\
      exists a, Permutation (owed g) (a :: owed g') /\ function g a = Return r
  | StopIteration =>
      at_pc g' = Finished /\ yielded g' = yielded g /\
      owed g = [] /\ args g' = []
  | Raised e =>
      at_pc g' = Finished /\ yielded g' = yielded g /\
      exists a rest, Permutation (owed g) (a :: rest) /\ function g a = Raise e
  end.

(** What a whole iteration does to them: [done] are the inputs whose results
    were yielded, in the order of the yields. *)
Definition settles {A R : Type} (g : generator A R (list A)) (rs : list R)
    (e : ending) (g' : generator A R (list A)) : Prop :=
  exists done,
    map (function g) done = map Return rs /\
    yielded g' = yielded g ++ rs /\
    at_pc g' = Finished /\
    match e with
    | Exhausted => Permutation (owed g) done /\ args g' = []
    | Failed x =>
        exists a rest,
          Permutation (owed g) (done ++ a :: rest) /\ function g a = Raise x
    | Unfinished => False
    end.

(** ** Calls of the client and their bookkeeping *)

(** [lookup] or [reverse_lookup], by the kind of names given. *)
Definition call {I : Type} (kind : lookup_kind) (client : DNSClient.self)
    (names : I) : DNSClient.lookup_generator I :=
  match kind with
  | Hostnames => DNSClient.lookup client names
  | Addresses => DNSClient.reverse_lookup client names
  end.

(** The summaries among the records logged during a call. *)
Definition summaries {I : Type} (l : DNSClient.lookup_generator I)
  : list log_record :=
  filter is_summary (DNSClient.logged l).

(** The two counters count the pairs yielded so far. *)
Definition tallied {I : Type} (l : DNSClient.lookup_generator I) : Prop :=
  DNSClient.num_resolved l = length (filter resolved (DNSClient.pairs l)) /\
  DNSClient.num_failed l = length (filter failed (DNSClient.pairs l)).

(** The body has not ended and nothing was summarised yet. *)
Definition in_progress {I : Type} (l : DNSClient.lookup_generator I) : Prop :=
  filter is_summary (DNSClient.info l) = [] /\
  match DNSClient.at_phase l with
  | DNSClient.NotStarted => DNSClient.pairs l = []
  | DNSClient.InLoop g => filter is_summary (log g) = [] /\ tallied l
  | DNSClient.Over _ => False
  end.

(** ** A host without network

    What the [socket] module answers on a machine that resolves only its
    loopback names.  A name goes through the idna codec before any query,
    and the codec raises UnicodeError on an empty label ("label empty or too
    long"); a name that does not resolve raises gaierror, an address without
    a name raises herror. *)

Fixpoint empty_label (at_label_start : bool) (name : string) : bool :=
  match name with
  | String.EmptyString => false
  | String.String c rest =>
      if Ascii.eqb c "."%char
      then (if at_label_start then true else empty_label true rest)
      else empty_label false rest
  end.

Definition loopback : Env :=
  mkEnv
    (fun hostname =>
       if empty_label true hostname then Raise UnicodeError
       else if String.eqb hostname "localhost" then Return "127.0.0.1"%string
       else Raise gaierror)
    (fun address =>
       if empty_label true address then Raise UnicodeError
       else if String.eqb address "127.0.0.1"
            then Return ("localhost"%string, [], ["127.0.0.1"%string])
       else Raise herror)
    (fun name => Return name)
    (Some 8%Z)
    (fun reading => (1000 + 25 * Z.of_nat reading)%Z).

(** ** Python strings, dicts and failures used by the commands *)

Infix "+++" := String.append (right associativity, at level 60).

Module Str.

(** [len(s)]. *)
Definition len (s : string) : nat := String.length s.

(** [sep.join(parts)]. *)
Definition join (sep : string) (parts : list string) : string :=
  String.concat sep parts.

(** [s.endswith(suffix)]: some tail of [s] is [suffix]. *)
Fixpoint endswith (s suffix : string) : bool :=
  String.eqb s suffix ||
  match s with
  | String.EmptyString => false
  | String.String _ rest => endswith rest suffix
  end.

Fixpoint spaces (n : nat) : string :=
  match n with
  | O => String.EmptyString
  | S n' => String.String " "%char (spaces n')
  end.

(** [f"{s:<{width}}"]: padded on the right, never cut. *)
Definition ljust (s : string) (width : nat) : string :=
  s +++ spaces (width - len s).

(** [s.split(sep)[0]] for a separator of one character. *)
Fixpoint before (sep : Ascii.ascii) (s : string) : string :=
  match s with
  | String.EmptyString => String.EmptyString
  | String.String c rest =>
      if Ascii.eqb c sep then String.EmptyString
      else String.String c (before sep rest)
  end.

(** [sep in s] for a separator of one character. *)
Fixpoint contains (sep : Ascii.ascii) (s : string) : bool :=
  match s with
  | String.EmptyString => false
  | String.String c rest => Ascii.eqb c sep || contains sep rest
  end.

(** [s.lower()] on ASCII letters. *)
Definition lower_char (c : Ascii.ascii) : Ascii.ascii :=
  let n := Ascii.nat_of_ascii c in
  if (65 <=? n) && (n <=? 90) then Ascii.ascii_of_nat (n + 32) else c.

Fixpoint lower (s : string) : string :=
  match s with
  | String.EmptyString => String.EmptyString
  | String.String c rest => String.String (lower_char c) (lower rest)
  end.

(** The digits of [f"{n:,}"], least significant first, a comma after every
    third digit that has a digit after it. *)
Fixpoint group3 (digits : list Ascii.ascii) : list Ascii.ascii :=
  match digits with
  | a :: b :: c :: ((_ :: _) as more) => a :: b :: c :: ","%char :: group3 more
  | _ => digits
  end.

(** [f"{n:,}"] for an int. *)
Definition format_comma (n : Z) : string :=
  let digits :=
    String.list_ascii_of_string
      (DecimalString.NilZero.string_of_uint (N.to_uint (Z.to_N (Z.abs n)))) in
  let grouped := String.string_of_list_ascii (rev (group3 (rev digits))) in
  if (n <? 0)%Z then "-" +++ grouped else grouped.

End Str.

(** A dict with string keys, in insertion order. *)
Module Dict.

Definition t (V : Type) : Type := list (string * V).

(** [d.get(key)]; [d[key]] raises KeyError where this is None. *)
Fixpoint get {V : Type} (d : t V) (key : string) : option V :=
  match d with
  | [] => None
  | (k, v) :: d' => if String.eqb k key then Some v else get d' key
  end.

(** [d[key] = value]: a key already there keeps its place. *)
Fixpoint set {V : Type} (d : t V) (key : string) (value : V) : t V :=
  match d with
  | [] => [(key, value)]
  | (k, v) :: d' =>
      if String.eqb k key then (k, value) :: d'
      else (k, v) :: set d' key value
  end.

Definition keys {V : Type} (d : t V) : list string := map fst d.

(** [{k: v for (k, v) in pairs}]. *)
Definition of_pairs {V : Type} (pairs : list (string * V)) : t V :=
  fold_left (fun d kv => set d (fst kv) (snd kv)) pairs [].

End Dict.

(** What a command can end with, besides the exceptions of [Py]. *)
Inductive failure : Type :=
| Exn (e : exn)
| KeyError (message : string)
| AssertionError (message : string)
| SystemExit (code : Z).

Inductive outcome (T : Type) : Type :=
| Done (v : T)
| Fails (f : failure).
Arguments Done {T} v.
Arguments Fails {T} f.

(** ** config.py *)

Module Config.

(** An instance of a subclass of [ServerTypeBase]. *)
Record ServerType := mkServerType {
  class_name : string;
  ip : string;
  distribution : string;
  language : string
}.

Definition Python2 (ip : string) : ServerType :=
  mkServerType "Python2" ip "Ubuntu 16.04" "Python 2.7".
Definition Python3 (ip : string) : ServerType :=
  mkServerType "Python3" ip "Ubuntu 20.04" "Python 3.8".
Definition Python310 (ip : string) : ServerType :=
  mkServerType "Python310" ip "Ubuntu 22.04" "Python 3.10".

(** A fabric [Connection]: its host string and [config.get('server_type')]. *)
Record Connection := mkConnection {
  host_string : string;
  server_type : option ServerType
}.

Definition staging1 := Python2 "50.112.114.3".
Definition staging2 := Python3 "35.167.37.253".
Definition staging4 := Python310 "13.54.91.243".
Definition web2 := Python2 "50.112.114.7".
Definition web3 := Python3 "52.39.131.4".

Definition GIT_SERVER : string := "git".

Definition SERVERS : Dict.t Connection :=
  [ ("git"%string, mkConnection "user@git.example.com" (Some staging4));
    ("staging1"%string, mkConnection "user@staging1.example.com" (Some staging1));
    ("staging2"%string, mkConnection "user@staging2.example.com" (Some staging2));
    ("staging4"%string, mkConnection "user@staging4.example.com" (Some staging4));
    ("web2"%string, mkConnection "user@web2.example.com" (Some web2));
    ("web3"%string, mkConnection "user@web3.example.com" (Some web3)) ].

Section Servers.
(** The module's [SERVERS]. *)
Variable SERVERS : Dict.t Connection.

Definition get_connection (hostname : string) : outcome Connection :=
  let key := Str.before "."%char hostname in
  match Dict.get SERVERS key with
  | Some connection => Done connection
  | None =>
      let valid_keys := Str.join ", " (Dict.keys SERVERS) in
      Fails (KeyError ("Hostname must be one of: " +++ valid_keys))
  end.

Definition servers_ip_to_host : Dict.t string :=
  fold_left
    (fun ips item =>
       let '(hostname, server) := item in
       match server_type server with
       | None => ips
       | Some server => Dict.set ips (ip server) hostname
       end)
    SERVERS [].

End Servers.

End Config.

(** ** commands/project/dns.py: the quick check of every project *)

Module DNSCommand.

Abbreviation pair := (string * option string)%type.

(** [groups[server].append(hostname)] on a [defaultdict(list)]. *)
Definition append_to (groups : Dict.t (list string)) (server hostname : string)
  : Dict.t (list string) :=
  Dict.set groups server
           (match Dict.get groups server with
            | Some hostnames => hostnames ++ [hostname]
            | None => [hostname]
            end).

(** [ips[address]], None standing for the KeyError; None is never a key. *)
Definition server_of (ips : Dict.t string) (address : option string)
  : option string :=
  match address with
  | Some address => Dict.get ips address
  | None => None
  end.

(** The body of the loop over [dns.lookup(projects)]. *)
Definition sort_pair (ips : Dict.t string)
    (state : Dict.t (list string) * nat * list pair) (item : pair)
  : Dict.t (list string) * nat * list pair :=
  let '(groups, longest, other) := state in
  let '(hostname, address) := item in
  match server_of ips address with
  | Some server =>
      (append_to groups server hostname, Nat.max longest (Str.len hostname),
       other)
  | None => (groups, longest, other ++ [(hostname, address)])
  end.

(** The loop, over the pairs the drained [lookup] yields. *)
Definition sort_pairs (ips : Dict.t string) (lookups : list pair)
  : Dict.t (list string) * nat * list pair :=
  fold_left (sort_pair ips) lookups ([], 0, []).

(** Truth of an optional string: neither None nor empty. *)
Definition truthy (x : option string) : bool :=
  match x with
  | Some s => negb (String.eqb s "")
  | None => false
  end.

(** [[x[1] for x in other if x[1]]]. *)
Definition addresses (other : list pair) : list string :=
  flat_map (fun x => match snd x with
                     | Some address => if truthy (snd x) then [address] else []
                     | None => []
                     end)
           other.

(** [max(strings, key=len)]: the first of the longest; ValueError on an
    empty list. *)
Definition max_by_len (strings : list string) : result string :=
  match strings with
  | [] => Raise ValueError
  | s :: rest =>
      Return (fold_left (fun best x =>
                           if Str.len best <? Str.len x then x else best)
                        rest s)
  end.

(** [sorted(other, key=lambda x: x[0].lower())]: stable, so by insertion
    after the items whose key is not greater. *)
Definition sort_key (x : pair) : string := Str.lower (fst x).

Fixpoint insert (x : pair) (sorted_ : list pair) : list pair :=
  match sorted_ with
  | [] => [x]
  | y :: rest =>
      if String.ltb (sort_key x) (sort_key y) then x :: sorted_
      else y :: insert x rest
  end.

Definition sorted (other : list pair) : list pair :=
  fold_left (fun sorted_ x => insert x sorted_) other [].

(** The body of the last loop: one printed line. *)
Definition error_line (longest : nat) (reversed_mapping : Dict.t (option string))
    (item : pair) : string :=
  let '(hostname, address) := item in
  let address := match address with None => "  None"%string | Some a => a end in
  let line := Str.ljust hostname longest +++ " -> " +++ Str.ljust address 15 in
  let reverse :=                              (* reversed_mapping.get(address) *)
    match Dict.get reversed_mapping address with
    | Some reverse => reverse
    | None => None
    end in
  match reverse with
  | Some name => if truthy reverse then line +++ " -> " +++ name else line
  | None => line
  end.

(** The end of [check_all], after the heading "N DNS Errors": the lines
    printed, or the exception.  [reverse_lookup] gives the pairs that a
    drained [dns.reverse_lookup(addresses)] yields. *)
Definition show_errors (reverse_lookup : list string -> list pair)
    (other : list pair) : result (list string) :=
  let addresses := addresses other in
  longest <- max_by_len (map fst other) ;;
  let longest := Str.len longest in
  let other := sorted other in
  let reversed_mapping := Dict.of_pairs (reverse_lookup addresses) in
  Return (map (error_line longest reversed_mapping) other).

End DNSCommand.

(** ** commands/utils/text.py *)

Module Text.

Definition ensure_slash (string_ : string) : string :=
  if negb (Str.endswith string_ "/") then string_ +++ "/" else string_.

(** [parts] is a list; [oxford_comma] is keyword-only. *)
Definition join_and (parts : list string) (oxford_comma : bool) : string :=
  match parts with
  | [] => ""%string
  | _ :: _ =>
      let last := List.last parts ""%string in     (* parts.pop() *)
      let parts := removelast parts in
      match parts with
      | [] => last
      | _ :: _ =>
          let string_ := Str.join ", " parts in
          let string_ :=
            if oxford_comma && (2 <=? length parts) then string_ +++ ","
            else string_ in
          string_ +++ " and " +++ last
      end
  end.

(** The table, with the two products of floats already truncated:
    int(60 * 60 * 24 * 365.2425) and int((60 * 60 * 24 * 365.2425) / 12). *)
Definition DURATIONS : list (string * Z) :=
  [ ("year"%string, 31556952%Z);
    ("month"%string, 2629746%Z);
    ("week"%string, (60 * 60 * 24 * 7)%Z);
    ("day"%string, (60 * 60 * 24)%Z);
    ("hour"%string, (60 * 60)%Z);
    ("minute"%string, 60%Z);
    ("second"%string, 1%Z) ].

(** [for key in DURATIONS: ...], with the raise that follows the loop. *)
Fixpoint first_unit (seconds : Z) (table : list (string * Z)) : result string :=
  match table with
  | [] => Raise ValueError
  | (key, length) :: table' =>
      let count := (seconds / length)%Z in
      if (1 <? count)%Z
      then Return (Str.format_comma count +++ " " +++ key +++ "s")
      else first_unit seconds table'
  end.

(** [duration], given an int. *)
Definition duration (seconds : Z) : result string :=
  if (seconds <? 0)%Z then Raise ValueError
  else if (seconds =? 0)%Z then Return "0 seconds"%string
  else if (seconds <? 2)%Z then Return "1 second"%string
  else first_unit seconds DURATIONS.

Definition alphabet : string :=
  "abcdefghijklmnopqrstuvwxyz0123456789!@#$^&*(-_=+)".

(** [random.choice(seq)], the draw given by its rank among the calls. *)
Definition random_choice (random : nat -> nat) (call : nat) (seq_ : string)
  : Ascii.ascii :=
  match String.get (random call mod Str.len seq_) seq_ with
  | Some c => c
  | None => Ascii.zero
  end.

(** The loop runs over [range(50)], whatever [length] is. *)
Definition create_secret_key (random : nat -> nat) (length : Z) : string :=
  let parts := map (fun i => random_choice random i alphabet) (seq 0 50) in
  String.string_of_list_ascii parts.

End Text.

(** ** commands/utils/files.py *)

Module Files.

Section Paths.
(** [path.is_dir()], asked of the file system for [str(path)]. *)
Variable is_dir : string -> bool.

(** A local path is given by [str(path)]. *)
Definition path_to_string (path : string) : string :=
  if is_dir path && negb (Str.endswith path "/") then path +++ "/" else path.

End Paths.

(** [connection.user] and [connection.host]. *)
Record Remote := mkRemote { user : string; host : string }.

Definition path_to_string_remote (path : string) (connection : Remote)
    (is_dir : bool) : string :=
  let string_ :=
    if is_dir && negb (Str.endswith path "/") then path +++ "/" else path in
  user connection +++ "@" +++ host connection +++ ":" +++ string_.

(** A pure POSIX path: whether it starts at the root, and its parts below
    the root; [Path('.')] has no part. *)
Record Path := mkPath { absolute : bool; parts : list string }.

Definition here : Path := mkPath false [].

(** [path / name] for a name of one part. *)
Definition div (path : Path) (name : string) : Path :=
  mkPath (absolute path) (parts path ++ [name]).

Fixpoint strip_prefix (prefix whole : list string) : option (list string) :=
  match prefix, whole with
  | [], rest => Some rest
  | p :: prefix', w :: whole' =>
      if String.eqb p w then strip_prefix prefix' whole' else None
  | _ :: _, [] => None
  end.

(** [path.relative_to(other)]. *)
Definition relative_to (path other : Path) : result Path :=
  if Bool.eqb (absolute path) (absolute other) then
    match strip_prefix (parts other) (parts path) with
    | Some rest => Return (mkPath false rest)
    | None => Raise ValueError
    end
  else Raise ValueError.

(** [for _ in depth.parts: target /= '..'], from [Path('.')]. *)
Definition updots (depth : Path) : Path :=
  fold_left (fun target _ => div target "..") (parts depth) here.

Section Resolve.
(** [path.resolve()], which asks the file system. *)
Variable resolve : Path -> Path.

Definition relative_path (old new : Path) : Path :=
  match relative_to new old with
  | Return target => target
  | Raise _ =>
      match relative_to old new with
      | Return depth =>
          if 3 <? length (parts depth) then resolve new else updots depth
      | Raise _ => resolve new
      end
  end.

End Resolve.

End Files.

(** ** commands/project/base.py: the project of the current folder *)

Module Project.

Section Folders.
(** [config.FOLDER_PROJECT_BASE] and [Path.cwd()]. *)
Variable FOLDER_PROJECT_BASE : Files.Path.
Variable cwd : Files.Path.

(** [relative.parts[0]], None on IndexError and on ValueError. *)
Definition get_project_name : option string :=
  match Files.relative_to cwd FOLDER_PROJECT_BASE with
  | Return relative =>
      match Files.parts relative with
      | name :: _ => Some name
      | [] => None
      end
  | Raise _ => None
  end.

Definition get_project_path : option Files.Path :=
  match get_project_name with
  | None => None
  | Some name => Some (Files.div FOLDER_PROJECT_BASE name)
  end.

End Folders.

End Project.

(** ** commands/base.py: the rsync commands *)

Module Base.

Definition trailing_slash_message : string :=
  "Rsync folder paths must end with trailing slash".

(** The command line handed to [self.run].  [exclude] is None when the
    keyword is not given. *)
Definition _rsync_folders (source destination : string)
    (exclude : option (list string)) (dry_run : bool) : outcome string :=
  if negb (Str.endswith source "/")
  then Fails (AssertionError trailing_slash_message)
  else if negb (Str.endswith destination "/")
  then Fails (AssertionError trailing_slash_message)
  else
    let args :=
      [ "--checksum"; "--delete-delay"; "--human-readable";
        "--no-inc-recursive"; "--recursive"; "--stats"; "--progress" ]%string in
    match exclude with
    | None => Fails (Exn TypeError)          (* for pattern in None *)
    | Some patterns =>
        let args :=
          args ++ map (fun pattern => "--exclude '" +++ pattern +++ "'")
                      patterns in
        let args := if dry_run then args ++ ["--dry-run"%string] else args in
        let arguments := Str.join " " args in
        Done ("rsync " +++ source +++ " " +++ destination +++ " " +++ arguments)
    end.

Section Folders.
Variable is_dir : string -> bool.
Variable connection : Files.Remote.

Definition download_folder (source destination : string)
    (exclude : option (list string)) (dry_run : bool) : outcome string :=
  if negb (is_dir destination) then Fails (SystemExit 1)
  else
    let source := Files.path_to_string_remote source connection true in
    let destination := Files.path_to_string is_dir destination in
    _rsync_folders source destination exclude dry_run.

Definition upload_folder (source destination : string)
    (exclude : option (list string)) (dry_run : bool) : outcome string :=
  if negb (is_dir source) then Fails (SystemExit 1)
  else
    let source := Files.path_to_string is_dir source in
    let destination := Files.path_to_string_remote destination connection true in
    _rsync_folders source destination exclude dry_run.

End Folders.

End Base.

(** A resolver that knows a few names and fails with gaierror or herror on
    the others, as the functions of [socket] do on well-formed names. *)
Definition hosts : Env :=
  mkEnv
    (fun hostname =>
       if String.eqb hostname "localhost" then Return "127.0.0.1"%string
       else if String.eqb hostname "web2.example.com"
            then Return "50.112.114.7"%string
       else Raise gaierror)
    (fun address =>
       if String.eqb address "127.0.0.1"
       then Return ("localhost"%string, [], ["127.0.0.1"%string])
       else Raise herror)
    (fun name => Return name)
    (Some 4%Z)
    (fun reading => Z.of_nat reading).

(** * Properties *)

(** ** The answer of [wait] *)

Section WaitFacts.
Context {X : Type}.
Implicit Types (l fs : list X).

Lemma extract_perm i l x r :
  extract i l = Some (x, r) -> Permutation l (x :: r).
Proof.
  revert i x r. induction l as [|y l IH]; intros i x r H; simpl in H.
  - discriminate.
  - destruct i as [|i].
    + injection H as <- <-. reflexivity.
    + destruct (extract i l) as [[z r']|] eqn:E; [|discriminate].
      injection H as <- <-.
      rewrite (IH _ _ _ E). apply perm_swap.
Qed.

Lemma extract_lt i l :
  i < length l -> exists x r, extract i l = Some (x, r).
Proof.
  revert i. induction l as [|y l IH]; intros i H; simpl in *.
  - lia.
  - destruct i as [|i]; [now eauto|].
    destruct (IH i) as (x & r & E); [lia|].
    rewrite E. eauto.
Qed.

Lemma extract_In l x :
  In x l -> exists i r, i < length l /\ extract i l = Some (x, r).
Proof.
  induction l as [|y l IH]; intros H; simpl in *.
  - contradiction.
  - destruct H as [->|H].
    + exists 0, l. split; [lia|reflexivity].
    + destruct (IH H) as (i & r & Hi & E).
      exists (S i), (y :: r). split; [lia|]. simpl. now rewrite E.
Qed.

Lemma select_perm picks fs done not_done :
  select picks fs = (done, not_done) -> Permutation fs (done ++ not_done).
Proof.
  revert fs done not_done.
  induction picks as [|i picks IH]; intros fs done not_done H; simpl in H.
  - injection H as <- <-. reflexivity.
  - destruct (extract (i mod length fs) fs) as [[x rest]|] eqn:E.
    + destruct (select picks rest) as [d n] eqn:S.
      injection H as <- <-.
      rewrite (extract_perm _ _ E). simpl.
      apply perm_skip. now apply IH.
    + injection H as <- <-. reflexivity.
Qed.

(** [wait] returns a partition of the set it was given. *)
Lemma wait_perm p fs done not_done :
  wait p fs = (done, not_done) -> Permutation fs (done ++ not_done).
Proof. apply select_perm. Qed.

(** With no timeout, [wait] on a set that is not empty returns at least one
    future that is done. *)
Lemma wait_nonempty p x fs :
  exists y done not_done, wait p (x :: fs) = (y :: done, not_done).
Proof.
  unfold wait. cbn [select].
  destruct (@extract_lt (first p mod length (x :: fs)) (x :: fs))
    as (y & r & E).
  - apply Nat.mod_upper_bound. simpl. lia.
  - rewrite E. destruct (select (others p) r) as [d n]. eauto.
Qed.

Lemma select_reaches fs done not_done :
  Permutation fs (done ++ not_done) ->
  exists picks not_done',
    length picks = length done /\
    select picks fs = (done, not_done') /\ Permutation not_done not_done'.
Proof.
  revert fs. induction done as [|x done IH]; intros fs H.
  - exists [], fs. simpl. repeat split. now symmetry.
  - simpl in H.
    destruct (@extract_In fs x) as (i & r & Hi & E).
    { eapply Permutation_in; [symmetry; exact H|]. now left. }
    assert (Hr : Permutation r (done ++ not_done)).
    { eapply Permutation_cons_inv. rewrite <- H. symmetry.
      now apply extract_perm with (i := i). }
    destruct (IH _ Hr) as (picks & nd & Hl & Hs & Hp).
    exists (i :: picks), nd. simpl. rewrite Nat.mod_small by exact Hi.
    rewrite E, Hs. repeat split; [now f_equal | exact Hp].
Qed.

(** Every answer [wait] may give is the answer to some pick: any futures of
    the set, at least one, in any order of iteration. *)
Lemma wait_reaches fs done not_done :
  done <> [] -> Permutation fs (done ++ not_done) ->
  exists p not_done',
    wait p fs = (done, not_done') /\ Permutation not_done not_done'.
Proof.
  intros Hd H. destruct (select_reaches _ _ H) as (picks & nd & Hl & Hs & Hp).
  destruct picks as [|i picks].
  - destruct done; [contradiction | discriminate].
  - exists (mkPick i picks), nd. split; assumption.
Qed.

End WaitFacts.

(** ** The generator, for any input iterator *)

Section PoolFacts.
Context {A R I : Type}.
Variable next_arg : I -> option (A * I).
Variable sched : nat -> pick.

Abbreviation gen := (generator A R I).
Abbreviation step1 := (step next_arg sched).
Abbreviation next1 := (next next_arg sched).
Abbreviation resume1 := (resume next_arg sched).

Ltac step_cases g :=
  unfold step, islice_step;
  let P := fresh "P" in
  destruct (at_pc g) as [|[|?]| |[|? ?] ?|[|?]|] eqn:P;
  [ destruct (num_threads g) as [?|] eqn:?;
    [ destruct (_ <=? 0)%Z eqn:? | ]
  | | destruct (next_arg (args g)) as [[? ?]|] eqn:?
  | destruct (futures g) as [|? ?] eqn:?;
    [ | destruct (wait _ _) as [? ?] eqn:? ]
  | | destruct (function g (farg _)) as [?|?] eqn:?
  | | destruct (next_arg (args g)) as [[? ?]|] eqn:?
  | ].

(** *** What a move leaves alone *)

Lemma step_function (g : gen) : function (snd (step1 g)) = function g.
Proof. step_cases g; cbn; congruence. Qed.

Lemma step_num_threads (g : gen) :
  num_threads (snd (step1 g)) = num_threads g.
Proof. step_cases g; cbn; congruence. Qed.

(** A pulled item is submitted in the same move. *)
Lemma step_submitted (g : gen) :
  consumed g = submitted g ->
  consumed (snd (step1 g)) = submitted (snd (step1 g)).
Proof. step_cases g; cbn; congruence. Qed.

Lemma count_summaries_app l1 l2 :
  count_summaries (l1 ++ l2) = count_summaries l1 + count_summaries l2.
Proof. unfold count_summaries. now rewrite filter_app, length_app. Qed.

Lemma filter_summary_app l1 l2 :
  filter is_summary (l1 ++ l2) = filter is_summary l1 ++ filter is_summary l2.
Proof. apply filter_app. Qed.

(** The pool logs no summary. *)
Lemma step_summaries (g : gen) :
  filter is_summary (log (snd (step1 g))) = filter is_summary (log g).
Proof.
  step_cases g; cbn; try reflexivity;
    rewrite filter_summary_app; cbn; apply app_nil_r.
Qed.

Lemma resume_function fuel (g : gen) :
  function (snd (resume1 fuel g)) = function g.
Proof.
  revert g. induction fuel as [|fuel IH]; intros g; cbn; [reflexivity|].
  pose proof (step_function g) as H.
  destruct (step1 g) as [[| | |] g']; cbn in *; try exact H.
  now rewrite IH.
Qed.

Lemma resume_summaries fuel (g : gen) :
  filter is_summary (log (snd (resume1 fuel g))) = filter is_summary (log g).
Proof.
  revert g. induction fuel as [|fuel IH]; intros g; cbn; [reflexivity|].
  pose proof (step_summaries g) as H.
  destruct (step1 g) as [[| | |] g']; cbn in *; try exact H.
  now rewrite IH.
Qed.

Lemma next_summaries (g : gen) :
  filter is_summary (log (snd (next1 g))) = filter is_summary (log g).
Proof. apply resume_summaries. Qed.

(** *** [next] always answers: the budget is never spent *)

Lemma resume_LoopHead fuel (g : gen) :
  at_pc g = LoopHead -> 2 <= fuel -> is_tau (fst (resume1 fuel g)) = false.
Proof.
  intros P Hf. destruct fuel as [|[|fuel]]; try lia.
  cbn [resume]. unfold step at 1. rewrite P.
  destruct (futures g) as [|x fs] eqn:F; [reflexivity|].
  destruct (wait_nonempty (sched (waits g)) x fs) as (y & d & nd & W).
  rewrite W. unfold step. cbn.
  destruct (function g (farg y)); reflexivity.
Qed.

Lemma resume_islice quota : forall fuel (g : gen),
  at_pc g = Priming quota \/ at_pc g = Refill quota ->
  quota + 3 <= fuel -> is_tau (fst (resume1 fuel g)) = false.
Proof.
  induction quota as [|quota IH]; intros fuel g P Hf;
    (destruct fuel as [|fuel]; [lia|]); cbn [resume];
    unfold step at 1, islice_step; destruct P as [P|P]; rewrite P.
  1,2: apply resume_LoopHead; [reflexivity | lia].
  all: destruct (next_arg (args g)) as [[a rest]|];
    [ apply IH; [cbn; auto | lia]
    | apply resume_LoopHead; [reflexivity | lia] ].
Qed.

Lemma next_total (g : gen) : is_tau (fst (next1 g)) = false.
Proof.
  unfold next, budget.
  destruct (at_pc g) as [|quota| |completed k|quota|] eqn:P.
  - destruct (num_threads g) as [n|] eqn:N.
    + replace (Z.to_nat (n * 2) + 4) with (S (Z.to_nat (n * 2) + 3)) by lia.
      cbn [resume]. unfold step at 1. rewrite P, N. destruct (n <=? 0)%Z; [reflexivity|].
      apply resume_islice with (quota := Z.to_nat (n * 2)); [cbn; auto | lia].
    + cbn. unfold step. rewrite P, N. reflexivity.
  - apply resume_islice with (quota := quota); auto.
  - now apply resume_LoopHead.
  - replace (k + 4) with (S (k + 3)) by lia.
    cbn [resume]. unfold step at 1. rewrite P.
    destruct completed as [|future rest].
    + apply resume_islice with (quota := k); [cbn; auto | lia].
    + destruct (function g (farg future)); reflexivity.
  - apply resume_islice with (quota := quota); auto.
  - cbn. unfold step. rewrite P. reflexivity.
Qed.

End PoolFacts.

(** ** What is in flight fits the queue *)

Section Bound.
Context {A R I : Type}.
Variable next_arg : I -> option (A * I).
Variable sched : nat -> pick.
Variable n : Z.
Hypothesis n_positive : (1 <= n)%Z.

Abbreviation gen := (generator A R I).

Lemma bounded_start (function : A -> result R) (args : I) :
  bounded n (threadpool_generator (Some n) function args).
Proof. cbv [bounded threadpool_generator]. cbn. auto. Qed.

Lemma bounded_step (g : gen) :
  bounded n g -> bounded n (snd (step next_arg sched g)).
Proof.
  unfold bounded. intros (N & S & H).
  unfold step, islice_step.
  destruct (at_pc g) as [|quota| |completed k|quota|] eqn:P.
  - rewrite N. destruct (n <=? 0)%Z eqn:L; [lia|].
    cbn. destruct H as (F & C & Y). rewrite F, Y. cbn. repeat split; auto; lia.
  - destruct quota as [|quota]; [|destruct (next_arg (args g)) as [[a rest]|]];
      cbn; rewrite ?length_app; cbn; destruct H as (Q & B & C & Y);
      rewrite ?Y; cbn; repeat split; auto; lia.
  - destruct (futures g) as [|x fs] eqn:F.
    + cbn. rewrite F. cbn. repeat split; auto; cbn in H; lia.
    + destruct (wait (sched (waits g)) (x :: fs)) as [done not_done] eqn:W.
      apply wait_perm, Permutation_length in W. rewrite length_app in W.
      cbn. repeat split; auto; try tauto; lia.
  - destruct completed as [|future rest].
    + cbn. repeat split; auto; try tauto. cbn in H. lia.
    + destruct (function g (farg future)) as [r|e]; cbn; rewrite ?length_app;
        cbn in *; repeat split; auto; try tauto; lia.
  - destruct quota as [|quota]; [|destruct (next_arg (args g)) as [[a rest]|]];
      cbn; rewrite ?length_app; cbn; repeat split; auto; try tauto; lia.
  - cbn. rewrite P. auto.
Qed.

Lemma bounded_close (g : gen) : bounded n g -> bounded n (close g).
Proof.
  unfold bounded. intros (N & S & H). cbn. repeat split; auto;
    destruct (at_pc g) as [|quota| |completed k|quota|]; try lia;
    destruct H as (F & C & Y); rewrite F; cbn; lia.
Qed.

Lemma bounded_reaches (g0 g : gen) :
  bounded n g0 -> reaches next_arg sched g0 g -> bounded n g.
Proof.
  intros H0 H. induction H; auto using bounded_step, bounded_close.
Qed.

Lemma bounded_outstanding (g : gen) :
  bounded n g -> (0 <= Z.of_nat (outstanding g) <= n * 2)%Z.
Proof.
  unfold bounded, outstanding. intros (_ & _ & H).
  destruct (at_pc g) as [|quota| |completed k|quota|]; try lia.
  destruct H as (F & _). rewrite F. cbn. lia.
Qed.

Lemma bounded_consumed (g : gen) :
  bounded n g -> (Z.of_nat (consumed g) <= Z.of_nat (length (yielded g)) + n * 2)%Z.
Proof.
  unfold bounded. intros (_ & _ & H).
  destruct (at_pc g) as [|quota| |completed k|quota|]; lia.
Qed.

End Bound.

(** ** The generator over a list of inputs: nothing lost, nothing twice *)

Section ListFacts.
Context {A R : Type}.
Variable sched : nat -> pick.

Abbreviation lgen := (generator A R (list A)).
Abbreviation lstep := (step (@list_next A) sched).
Abbreviation lnext := (next (@list_next A) sched).

Lemma list_next_None (l : list A) : list_next l = None -> l = [].
Proof. destruct l; [reflexivity | discriminate]. Qed.

Lemma list_next_Some (l : list A) a rest :
  list_next l = Some (a, rest) -> l = a :: rest.
Proof. destruct l; [discriminate | now injection 1 as <- <-]. Qed.

Lemma live_start (n : Z) (function : A -> result R) (inputs : list A) :
  (1 <= n)%Z -> live (threadpool_generator (Some n) function inputs).
Proof. intros H. cbn. eauto. Qed.

Lemma accounts_islice (g : lgen) quota (continue_ : nat -> pc A) :
  (forall q, continue_ q = Priming q) \/ (forall q, continue_ q = Refill q) ->
  at_pc g = continue_ quota -> live g ->
  accounts g (fst (islice_step (@list_next A) quota continue_ g))
             (snd (islice_step (@list_next A) quota continue_ g)).
Proof.
  intros C P L. unfold islice_step.
  assert (L' : 0 < quota \/ futures g <> [] \/ args g = []).
  { unfold live in L. rewrite P in L. destruct C as [C|C]; now rewrite C in L. }
  assert (O : owed g = map farg (futures g) ++ args g).
  { unfold owed. rewrite P. destruct C as [C|C]; now rewrite C. }
  destruct quota as [|quota].
  - cbn. repeat split; [|now rewrite O]. destruct L' as [L'|L']; [lia|exact L'].
  - destruct (list_next (args g)) as [[a rest]|] eqn:E.
    + apply list_next_Some in E. cbn. repeat split.
      * unfold live. cbn.
        assert (F : futures g ++ [mkFuture (submitted g) a] <> []).
        { intros F. now apply app_eq_nil in F. }
        destruct C as [C|C]; rewrite C; auto.
      * rewrite O, E. unfold owed. cbn.
        replace (map farg (futures g ++ [mkFuture (submitted g) a]) ++ rest)
          with (map farg (futures g) ++ a :: rest).
        { destruct C as [C|C]; now rewrite C. }
        rewrite map_app. cbn. now rewrite <- app_assoc.
    + apply list_next_None in E. cbn. repeat split; [now right | now rewrite O].
Qed.

Lemma accounts_step (g : lgen) :
  live g -> accounts g (fst (lstep g)) (snd (lstep g)).
Proof.
  intros L. unfold step.
  destruct (at_pc g) as [|quota| |completed k|quota|] eqn:P.
  - unfold live in L. rewrite P in L. destruct L as (n & N & Hn). rewrite N.
    destruct (n <=? 0)%Z eqn:Le; [lia|]. cbn. repeat split.
    + left. lia.
    + unfold owed. now rewrite P.
  - apply accounts_islice; auto.
  - unfold live in L. rewrite P in L.
    destruct (futures g) as [|x fs] eqn:F.
    + destruct L as [L|L]; [contradiction|].
      cbn. unfold owed. rewrite P, F, L. auto.
    + destruct (wait_nonempty (sched (waits g)) x fs) as (y & d & nd & W).
      rewrite W. apply wait_perm in W.
      apply (Permutation_map farg), (Permutation_app_tail (args g)) in W.
      rewrite map_app, <- app_assoc in W.
      cbn. repeat split; [lia|]. unfold owed. rewrite P, F. exact W.
  - destruct completed as [|future rest].
    + cbn. unfold live, owed in *. rewrite P in *. cbn. auto.
    + destruct (function g (farg future)) as [r|e] eqn:E; cbn.
      * unfold live, owed in *. rewrite P in *. cbn. repeat split; eauto.
      * repeat split. unfold owed. rewrite P. cbn. eauto.
  - apply accounts_islice; auto.
  - unfold live in L. now rewrite P in L.
Qed.

Lemma accounts_tau (g g1 g2 : lgen) ev :
  accounts g Tau g1 -> function g1 = function g -> accounts g1 ev g2 ->
  accounts g ev g2.
Proof.
  intros (L1 & O1 & Y1) F H. destruct ev as [|r| |e]; cbn in *.
  - destruct H as (L2 & O2 & Y2). repeat split; auto.
    + now rewrite O1.
    + congruence.
  - destruct H as (L2 & Y2 & a & O2 & Fa). repeat split; auto.
    + congruence.
    + exists a. split; [now rewrite O1 | congruence].
  - destruct H as (P2 & Y2 & O2 & A2). repeat split; auto.
    + congruence.
    + rewrite O2 in O1. now apply Permutation_nil, Permutation_sym.
  - destruct H as (P2 & Y2 & a & rest & O2 & Fa). repeat split; auto.
    + congruence.
    + exists a, rest. split; [now rewrite O1 | congruence].
Qed.

Lemma resume_accounts fuel : forall g : lgen,
  live g ->
  is_tau (fst (resume (@list_next A) sched fuel g)) = false ->
  accounts g (fst (resume (@list_next A) sched fuel g))
             (snd (resume (@list_next A) sched fuel g)).
Proof.
  induction fuel as [|fuel IH]; intros g L T; cbn in *; [discriminate|].
  pose proof (@accounts_step g L) as H.
  pose proof (step_function (@list_next A) sched g) as F.
  destruct (lstep g) as [[|r| |e] g1]; cbn in *; auto.
  eapply accounts_tau; eauto. apply IH; [apply H | exact T].
Qed.

Lemma next_accounts (g : lgen) :
  live g -> accounts g (fst (lnext g)) (snd (lnext g)).
Proof. intros L. apply resume_accounts; [exact L | apply next_total]. Qed.

(** From a running generator, an iteration of enough calls ends, by
    exhaustion or by an exception, and settles the inputs owed. *)
Lemma iterate_settles fuel : forall g : lgen,
  live g -> length (owed g) < fuel ->
  settles g (fst (fst (iterate (@list_next A) sched fuel g)))
            (snd (fst (iterate (@list_next A) sched fuel g)))
            (snd (iterate (@list_next A) sched fuel g)).
Proof.
  induction fuel as [|fuel IH]; intros g L Hf; [lia|]. cbn [iterate].
  pose proof (@next_accounts g L) as H.
  pose proof (next_total (@list_next A) sched g) as T.
  pose proof (resume_function (@list_next A) sched (budget g) g) as F.
  fold (lnext g) in F.
  destruct (lnext g) as [[|r| |e] g1]; cbn in H, T, F; [discriminate| | |].
  - destruct H as (L1 & Y1 & a & O1 & Fa).
    assert (Hf1 : length (owed g1) < fuel).
    { apply Permutation_length in O1. cbn in O1. lia. }
    specialize (IH g1 L1 Hf1).
    destruct (iterate (@list_next A) sched fuel g1) as [[rs e] g2].
    cbn in *. destruct IH as (done & M & Y2 & P2 & E).
    exists (a :: done). cbn. repeat split.
    + rewrite Fa. f_equal. now rewrite <- F.
    + now rewrite Y2, Y1, <- app_assoc.
    + exact P2.
    + destruct e as [|x|].
      * destruct E as (E & A2). split; [|exact A2].
        rewrite O1. now apply perm_skip.
      * destruct E as (b & rest & E & Fb). exists b, rest.
        split; [|congruence]. rewrite O1. now apply perm_skip.
      * exact E.
  - destruct H as (P1 & Y1 & O1 & A1). exists []. cbn.
    rewrite app_nil_r, O1. auto.
  - destruct H as (P1 & Y1 & a & rest & O1 & Fa). exists []. cbn.
    rewrite app_nil_r. eauto 8.
Qed.

(** Every pull from the list moves one item from the input to the count. *)
Lemma step_conserves (g : lgen) :
  consumed (snd (lstep g)) + length (args (snd (lstep g)))
  = consumed g + length (args g).
Proof.
  unfold step, islice_step.
  destruct (at_pc g) as [|[|?]| |[|? ?] ?|[|?]|]; try reflexivity.
  - destruct (num_threads g) as [n|]; [destruct (n <=? 0)%Z|]; reflexivity.
  - destruct (list_next (args g)) as [[a rest]|] eqn:E; [|reflexivity].
    apply list_next_Some in E. rewrite E. cbn. lia.
  - destruct (futures g); [reflexivity|].
    destruct (wait _ _); reflexivity.
  - destruct (function g (farg _)); reflexivity.
  - destruct (list_next (args g)) as [[a rest]|] eqn:E; [|reflexivity].
    apply list_next_Some in E. rewrite E. cbn. lia.
Qed.

Lemma reaches_conserves (g0 g : lgen) :
  reaches (@list_next A) sched g0 g ->
  consumed g + length (args g) = consumed g0 + length (args g0).
Proof.
  induction 1 as [|g H IH|g H IH]; [reflexivity| |exact IH].
  now rewrite step_conserves.
Qed.

End ListFacts.

(** ** A call of [next] and a whole iteration go through points only *)

Section PointsFacts.
Context {A R I : Type}.
Variable next_arg : I -> option (A * I).
Variable sched : nat -> pick.

Abbreviation gen := (generator A R I).

Lemma reaches_trans (g0 g1 g2 : gen) :
  reaches next_arg sched g0 g1 -> reaches next_arg sched g1 g2 ->
  reaches next_arg sched g0 g2.
Proof.
  intros H1 H2. induction H2; [exact H1 | |];
    [now apply reaches_step | now apply reaches_close].
Qed.

Lemma reaches_resume fuel : forall g : gen,
  reaches next_arg sched g (snd (resume next_arg sched fuel g)).
Proof.
  induction fuel as [|fuel IH]; intros g; cbn; [apply reaches_start|].
  pose proof (reaches_step (reaches_start next_arg sched g)) as H.
  destruct (step next_arg sched g) as [[|r| |e] g1]; cbn in *; auto.
  eapply reaches_trans; [exact H | apply IH].
Qed.

Lemma reaches_next (g : gen) :
  reaches next_arg sched g (snd (next next_arg sched g)).
Proof. apply reaches_resume. Qed.

Lemma reaches_iterate fuel : forall g : gen,
  reaches next_arg sched g (snd (iterate next_arg sched fuel g)).
Proof.
  induction fuel as [|fuel IH]; intros g; cbn; [apply reaches_start|].
  pose proof (reaches_next g) as H.
  destruct (next next_arg sched g) as [[|r| |e] g1]; cbn in *; auto.
  specialize (IH g1).
  destruct (iterate next_arg sched fuel g1) as [[rs e] g2]. cbn in *.
  eapply reaches_trans; eauto.
Qed.

End PointsFacts.

(** ** Results of the pool against the sequential reference *)

Section Reference.
Context {A R : Type}.
Variable function : A -> result R.

Lemma sequential_map inputs expected :
  sequential function inputs = Return expected ->
  map function inputs = map Return expected.
Proof.
  revert expected. induction inputs as [|a inputs IH]; intros expected H.
  - injection H as <-. reflexivity.
  - cbn in H. destruct (function a) as [r|e] eqn:Fa; [|discriminate].
    cbn in H. destruct (sequential function inputs) as [rs|e]; [|discriminate].
    injection H as <-. cbn. now rewrite Fa, (IH rs).
Qed.

Lemma map_Return_In (l : list A) (rs : list R) a :
  map function l = map Return rs -> In a l -> exists r, function a = Return r.
Proof.
  revert rs. induction l as [|b l IH]; intros rs M H; [contradiction|].
  destruct rs as [|r rs]; [discriminate|]. injection M as Fb M.
  destruct H as [<-|H]; eauto.
Qed.

Lemma map_Return_inj (l1 l2 : list R) :
  map (@Return R) l1 = map (@Return R) l2 -> l1 = l2.
Proof.
  revert l2. induction l1 as [|r l1 IH]; intros [|r' l2] H;
    try discriminate; [reflexivity|].
  injection H as <- H. now rewrite (IH l2).
Qed.

Lemma Permutation_Return (l1 l2 : list R) :
  Permutation (map (@Return R) l1) (map (@Return R) l2) -> Permutation l1 l2.
Proof.
  intros H. apply Permutation_sym, Permutation_map_inv in H.
  destruct H as (l3 & E & H). apply map_Return_inj in E. now subst.
Qed.

End Reference.

Section PoolTheorems.
Context {A R : Type}.
Variable sched : nat -> pick.
Variable n : Z.
Variable function : A -> result R.
Variable inputs : list A.

Abbreviation g0 := (threadpool_generator (I := list A) (Some n) function inputs).

Lemma iterate_from_start fuel :
  (1 <= n)%Z -> length inputs < fuel ->
  exists rs e g',
    iterate (@list_next A) sched fuel g0 = (rs, e, g') /\
    settles g0 rs e g' /\
    consumed g' + length (args g') = length inputs /\
    submitted g' = consumed g'.
Proof.
  intros Hn Hf.
  pose proof (@iterate_settles A R sched fuel g0 (live_start function inputs Hn) Hf) as S.
  pose proof (reaches_iterate (@list_next A) sched fuel g0) as Re.
  destruct (iterate (@list_next A) sched fuel g0) as [[rs e] g'].
  exists rs, e, g'. cbn in *. repeat split; [exact S| |].
  - now rewrite (reaches_conserves Re).
  - pose proof (bounded_reaches Hn (bounded_start n function inputs) Re) as B.
    symmetry. apply B.
Qed.

End PoolTheorems.

(** C1.  Over a list of N inputs, with num_threads >= 1 and a worker that
    always returns, iterating the generator to exhaustion (N + 1 calls of
    [next] or more allowed) ends by StopIteration after exactly N results:
    every input was pulled once and submitted once, and the results are the
    worker's results for the inputs, each once, in some order. *)
Theorem yields_one_result_per_input
    (A R : Type) (sched : nat -> pick) (n : Z) (function : A -> result R)
    (inputs : list A) (fuel : nat) :
  (1 <= n)%Z ->
  (forall a, returns (function a) = true) ->
  length inputs < fuel ->
  exists rs g',
    iterate (@list_next A) sched fuel
            (threadpool_generator (Some n) function inputs)
    = (rs, Exhausted, g') /\
    length rs = length inputs /\
    yielded g' = rs /\
    args g' = [] /\
    consumed g' = length inputs /\
    submitted g' = length inputs /\
    exists order,
      Permutation inputs order /\ map function order = map Return rs.
Proof.
  intros Hn Hret Hf.
  destruct (iterate_from_start sched function inputs Hn Hf)
    as (rs & e & g' & It & (done & M & Y & P & E) & C & S).
  destruct e as [|x|]; [|exfalso|contradiction].
  - destruct E as (O & Ar). cbn in O, Y, M.
    exists rs, g'. rewrite Ar in C. cbn in C.
    repeat split; auto; try lia.
    + apply Permutation_length in O. rewrite O.
      apply (f_equal (@length _)) in M. now rewrite !length_map in M.
    + exists done. auto.
  - destruct E as (a & rest & _ & Fa). cbn in Fa.
    specialize (Hret a). rewrite Fa in Hret. discriminate.
Qed.

Lemma yields_one_result_per_input_witness :
  exists rs g',
    iterate (@list_next nat) (fun round => mkPick round [1]) 4
            (threadpool_generator (Some 1%Z) (fun a => Return (a * 10)) [1; 2; 3])
    = (rs, Exhausted, g') /\
    length rs = length [1; 2; 3] /\
    yielded g' = rs /\
    args g' = [] /\
    consumed g' = length [1; 2; 3] /\
    submitted g' = length [1; 2; 3] /\
    exists order,
      Permutation [1; 2; 3] order /\
      map (fun a => Return (a * 10)) order = map Return rs.
Proof.
  apply (@yields_one_result_per_input nat nat (fun round => mkPick round [1])
           1%Z (fun a => Return (a * 10)) [1; 2; 3] 4).
  - lia.
  - intros a. reflexivity.
  - simpl. lia.
Defined.

(** C4.  Whatever futures [wait] reports done and in whatever order, the
    results yielded over a list of inputs are a permutation of the results
    of the sequential reference, when that reference returns. *)
Theorem results_match_sequential_reference
    (A R : Type) (sched : nat -> pick) (n : Z) (function : A -> result R)
    (inputs : list A) (expected : list R) (fuel : nat) :
  (1 <= n)%Z ->
  sequential function inputs = Return expected ->
  length inputs < fuel ->
  exists rs g',
    iterate (@list_next A) sched fuel
            (threadpool_generator (Some n) function inputs)
    = (rs, Exhausted, g') /\
    Permutation rs expected.
Proof.
  intros Hn Hseq Hf. apply sequential_map in Hseq.
  destruct (iterate_from_start sched function inputs Hn Hf)
    as (rs & e & g' & It & (done & M & Y & P & E) & C & S).
  cbn in M. destruct e as [|x|]; [|exfalso|contradiction].
  - destruct E as (O & Ar). cbn in O. exists rs, g'. split; [exact It|].
    apply Permutation_Return. rewrite <- M, <- Hseq.
    apply Permutation_map, Permutation_sym, O.
  - destruct E as (a & rest & O & Fa). cbn in O, Fa.
    destruct (map_Return_In function inputs expected a Hseq) as (r & Fr).
    + eapply Permutation_in; [symmetry; exact O|].
      apply in_or_app. right. now left.
    + congruence.
Qed.

Lemma results_match_sequential_reference_witness :
  exists rs g',
    iterate (@list_next nat) (fun round => mkPick (round + 2) [0; 5]) 6
            (threadpool_generator (Some 2%Z) (fun a => Return (a + 100))
                                  [5; 4; 3; 2; 1])
    = (rs, Exhausted, g') /\
    Permutation rs [105; 104; 103; 102; 101].
Proof.
  apply (@results_match_sequential_reference nat nat
           (fun round => mkPick (round + 2) [0; 5]) 2%Z
           (fun a => Return (a + 100)) [5; 4; 3; 2; 1]
           [105; 104; 103; 102; 101] 6).
  - lia.
  - reflexivity.
  - simpl. lia.
Defined.

(** C2.  With num_threads >= 1, at every point of an iteration, over any
    input iterator and under any schedule, the tasks submitted and not yet
    yielded number at least 0 and at most num_threads * 2, which is the
    queue_length computed at the start; while priming, what was submitted
    plus what may still be submitted fits the queue, and while topping up,
    what is in flight plus what may still be submitted fits it too. *)
Theorem outstanding_within_queue_length
    (A R I : Type) (next_arg : I -> option (A * I)) (sched : nat -> pick)
    (n : Z) (function : A -> result R) (args : I) (g : generator A R I) :
  (1 <= n)%Z ->
  reaches next_arg sched (threadpool_generator (Some n) function args) g ->
  (0 <= Z.of_nat (outstanding g) <= n * 2)%Z /\
  match at_pc g with
  | Created | Finished => True
  | Priming quota =>
      queue_length g = (n * 2)%Z /\
      (Z.of_nat (submitted g + quota) <= queue_length g)%Z
  | Refill quota =>
      queue_length g = (n * 2)%Z /\
      (Z.of_nat (outstanding g + quota) <= queue_length g)%Z
  | LoopHead =>
      queue_length g = (n * 2)%Z
  | Yielding completed k =>
      queue_length g = (n * 2)%Z /\ length completed <= k /\
      (Z.of_nat (length (futures g) + k) <= queue_length g)%Z
  end.
Proof.
  intros Hn Re.
  pose proof (bounded_reaches Hn (bounded_start n function args) Re) as B.
  split; [now apply bounded_outstanding|].
  destruct B as (_ & S & B). unfold outstanding.
  destruct (at_pc g) as [|quota| |completed k|quota|]; auto;
    try (destruct B as (-> & B)); try tauto; repeat split; try tauto; lia.
Qed.

Lemma outstanding_within_queue_length_witness :
  let step' := step (@list_next nat) (fun round => mkPick round []) in
  let g :=
    snd (step' (snd (step' (snd (step'
      (threadpool_generator (Some 3%Z) (fun a => Return a) [7; 8; 9])))))) in
  (0 <= Z.of_nat (outstanding g) <= 3 * 2)%Z /\
  match at_pc g with
  | Created | Finished => True
  | Priming quota =>
      queue_length g = (3 * 2)%Z /\
      (Z.of_nat (submitted g + quota) <= queue_length g)%Z
  | Refill quota =>
      queue_length g = (3 * 2)%Z /\
      (Z.of_nat (outstanding g + quota) <= queue_length g)%Z
  | LoopHead =>
      queue_length g = (3 * 2)%Z
  | Yielding completed k =>
      queue_length g = (3 * 2)%Z /\ length completed <= k /\
      (Z.of_nat (length (futures g) + k) <= queue_length g)%Z
  end.
Proof.
  intros step' g.
  apply (@outstanding_within_queue_length nat nat (list nat) (@list_next nat)
           (fun round => mkPick round []) 3%Z (fun a => Return a) [7; 8; 9] g).
  - lia.
  - apply reaches_step, reaches_step, reaches_step, reaches_start.
Defined.

(** C10.  With num_threads >= 1, at every point of an iteration, over any
    input iterator, ended or not, the items pulled from the input are at
    most the results already yielded plus num_threads * 2; each was
    submitted on being pulled. *)
Theorem consumed_only_as_needed
    (A R I : Type) (next_arg : I -> option (A * I)) (sched : nat -> pick)
    (n : Z) (function : A -> result R) (args : I) (g : generator A R I) :
  (1 <= n)%Z ->
  reaches next_arg sched (threadpool_generator (Some n) function args) g ->
  (Z.of_nat (consumed g) <= Z.of_nat (length (yielded g)) + n * 2)%Z /\
  consumed g = submitted g /\
  match at_pc g with
  | Priming quota => (Z.of_nat (consumed g + quota) <= n * 2)%Z
  | Refill quota =>
      (Z.of_nat (consumed g + quota) <= Z.of_nat (length (yielded g)) + n * 2)%Z
  | _ => True
  end.
Proof.
  intros Hn Re.
  pose proof (bounded_reaches Hn (bounded_start n function args) Re) as B.
  split; [now apply bounded_consumed|].
  destruct B as (_ & S & B). split; [exact S|].
  destruct (at_pc g) as [|quota| |completed k|quota|]; auto; lia.
Qed.

Lemma consumed_only_as_needed_witness :
  let g :=
    snd (iterate count_next (fun round => mkPick (3 * round) [round]) 5
           (threadpool_generator (Some 2%Z) (fun a => Return (a * a)) 0)) in
  (Z.of_nat (consumed g) <= Z.of_nat (length (yielded g)) + 2 * 2)%Z /\
  consumed g = submitted g /\
  match at_pc g with
  | Priming quota => (Z.of_nat (consumed g + quota) <= 2 * 2)%Z
  | Refill quota =>
      (Z.of_nat (consumed g + quota) <= Z.of_nat (length (yielded g)) + 2 * 2)%Z
  | _ => True
  end.
Proof.
  intros g.
  apply (@consumed_only_as_needed nat nat nat count_next
           (fun round => mkPick (3 * round) [round]) 2%Z
           (fun a => Return (a * a)) 0 g).
  - lia.
  - apply reaches_iterate.
Defined.

(** ** Exceptions out of the generator *)

Lemma reaches_function (A R I : Type) (next_arg : I -> option (A * I))
    (sched : nat -> pick) (g0 g : generator A R I) :
  reaches next_arg sched g0 g -> function g = function g0.
Proof.
  induction 1 as [|g H IH|g H IH]; [reflexivity| |exact IH].
  now rewrite step_function.
Qed.

(** The future whose result is retrieved holds an exception: [next] raises
    it, the generator is over, and a later [next] finds it exhausted. *)
Lemma next_raises (A R I : Type) (next_arg : I -> option (A * I))
    (sched : nat -> pick) (g : generator A R I) future rest k e :
  at_pc g = Yielding (future :: rest) k ->
  function g (farg future) = Raise e ->
  next next_arg sched g = (Raised e, close g) /\
  next next_arg sched (close g) = (StopIteration, close g).
Proof.
  intros P F. split.
  - unfold next, budget. rewrite P.
    replace (k + 4) with (S (k + 3)) by lia. cbn [resume].
    unfold step. now rewrite P, F.
  - reflexivity.
Qed.



(** C9.  With num_threads <= 0, calling [threadpool_generator] only makes a
    generator that has not started; the first [next] raises ValueError, out
    of the constructor of the executor, with no item pulled from the input,
    nothing submitted and nothing yielded, and the generator is over. *)
Theorem nonpositive_num_threads_raises
    (A R I : Type) (next_arg : I -> option (A * I)) (sched : nat -> pick)
    (n : Z) (function : A -> result R) (inputs : I) :
  (n <= 0)%Z ->
  let g0 := threadpool_generator (Some n) function inputs in
  at_pc g0 = Created /\
  exists g',
    next next_arg sched g0 = (Raised ValueError, g') /\
    at_pc g' = Finished /\
    args g' = inputs /\ consumed g' = 0 /\ submitted g' = 0 /\ yielded g' = [] /\
    step next_arg sched g0 = (Raised ValueError, g').
Proof.
  intros Hn g0. split; [reflexivity|].
  exists (set_pc Finished (start n g0)).
  assert (St : step next_arg sched g0
               = (Raised ValueError, set_pc Finished (start n g0))).
  { unfold step. cbn. destruct (n <=? 0)%Z eqn:L; [reflexivity | lia]. }
  repeat split; auto.
  unfold next, budget. cbn [g0 at_pc num_threads threadpool_generator].
  replace (Z.to_nat (n * 2) + 4) with (S (Z.to_nat (n * 2) + 3)) by lia.
  cbn [resume]. fold g0. now rewrite St.
Qed.

Lemma nonpositive_num_threads_raises_witness :
  let g0 := threadpool_generator (Some 0%Z) (fun a : nat => Return a) [1; 2] in
  at_pc g0 = Created /\
  exists g',
    next (@list_next nat) (fun _ => mkPick 0 []) g0 = (Raised ValueError, g') /\
    at_pc g' = Finished /\
    args g' = [1; 2] /\ consumed g' = 0 /\ submitted g' = 0 /\ yielded g' = [] /\
    step (@list_next nat) (fun _ => mkPick 0 []) g0 = (Raised ValueError, g').
Proof.
  apply (@nonpositive_num_threads_raises nat nat (list nat) (@list_next nat)
           (fun _ => mkPick 0 []) 0%Z (fun a : nat => Return a) [1; 2]).
  lia.
Defined.

(** ** The workers of the client *)

Section Workers.
Variable env : Env.

Lemma gethostbyname_resolved hostname address :
  socket_gethostbyname env hostname = Return address ->
  DNSClient._gethostbyname env hostname = Return (hostname, Some address).
Proof. intros H. unfold DNSClient._gethostbyname. now rewrite H. Qed.

(** Only OSError and its subclasses become None. *)
Lemma gethostbyname_failed hostname e :
  socket_gethostbyname env hostname = Raise e ->
  DNSClient._gethostbyname env hostname
  = if issubclass e OSError then Return (hostname, None) else Raise e.
Proof.
  intros H. unfold DNSClient._gethostbyname. rewrite H.
  destruct e; reflexivity.
Qed.

(** OSError, UnicodeError and their subclasses become None. *)
Lemma gethostbyaddr_failed address e :
  socket_gethostbyaddr env address = Raise e ->
  DNSClient._gethostbyaddr env address
  = if issubclass e OSError || issubclass e UnicodeError
    then Return (address, None) else Raise e.
Proof.
  intros H. unfold DNSClient._gethostbyaddr. rewrite H.
  destruct e; reflexivity.
Qed.

End Workers.

(** C3.  On the host without network, for the hostname "a..b", whose empty
    label the idna codec rejects with UnicodeError: [_gethostbyname] lets
    the exception through, and under every schedule the first [next] on
    [lookup(["a..b"])] of a client of 32 threads raises it instead of
    yielding ("a..b", None); [_gethostbyaddr] turns the same failure into
    None, and so does [_gethostbyname] for a name that is well formed and
    unknown. *)
Theorem lookup_raises_on_malformed_name :
  DNSClient._gethostbyname loopback "a..b" = Raise UnicodeError /\
  (forall sched,
      fst (DNSClient.lookup_next (@list_next string) sched loopback
             (DNSClient.lookup (DNSClient.mkSelf 32) ["a..b"%string]))
      = Raised UnicodeError) /\
  DNSClient._gethostbyaddr loopback "a..b" = Return ("a..b"%string, None) /\
  DNSClient._gethostbyname loopback "nowhere.invalid"
  = Return ("nowhere.invalid"%string, None).
Proof.
  repeat split.
  intros sched.
  assert (Hn' : (1 <= 32)%Z) by lia.
  pose (g := threadpool_generator (R := string * option string) (Some 32%Z)
               (DNSClient._gethostbyname loopback) ["a..b"%string]).
  pose proof (@next_accounts _ _ sched g
                (live_start (DNSClient._gethostbyname loopback) _ Hn')) as H.
  pose proof (next_total (@list_next string) sched g) as T.
  unfold DNSClient.lookup_next. cbn -[next]. unfold DNSClient.loop.
  cbn -[next]. fold g.
  destruct (next (@list_next string) sched g) as [[|[key value]| |e] g'];
    cbn in H, T |- *.
  - discriminate.
  - destruct H as (_ & _ & a & O & Fa).
    assert (Ha : In a ["a..b"%string]).
    { eapply Permutation_in; [symmetry; exact O | now left]. }
    destruct Ha as [<-|[]]. discriminate.
  - destruct H as (_ & _ & O & _). discriminate.
  - destruct H as (_ & _ & a & rest & O & Fa).
    assert (Ha : In a ["a..b"%string]).
    { eapply Permutation_in; [symmetry; exact O | now left]. }
    destruct Ha as [<-|[]]. now injection Fa as <-.
Qed.

(** C7.  [threadpool_generator] applies no default: given None for
    num_threads, the first [next] raises TypeError, out of [None * 2], with
    no executor made and no item pulled.  [DNSClient] does apply one: made
    with no num_threads, it holds os.cpu_count() * 4, the same for the same
    count of cores, and a given num_threads is kept as it is. *)
Theorem unspecified_num_threads
    (A R I : Type) (next_arg : I -> option (A * I)) (sched : nat -> pick)
    (function : A -> result R) (inputs : I)
    (by_name : string -> result string)
    (by_addr : string -> result (string * list string * list string))
    (fqdn : string -> result string) (clock : nat -> Z) (cores n : Z) :
  let g0 := threadpool_generator None function inputs in
  next next_arg sched g0 = (Raised TypeError, close g0) /\
  consumed (close g0) = 0 /\ submitted (close g0) = 0 /\
  DNSClient.__init__ (mkEnv by_name by_addr fqdn (Some cores) clock) None
  = Return (DNSClient.mkSelf (cores * 4)) /\
  DNSClient.__init__ (mkEnv by_name by_addr fqdn (Some cores) clock) (Some n)
  = Return (DNSClient.mkSelf n).
Proof. repeat split. Qed.

(** ** The statistics of a call *)

Section LookupFacts.
Context {I : Type}.
Variable next_arg : I -> option (string * I).
Variable sched : nat -> pick.
Variable env : Env.

Abbreviation lgen := (DNSClient.lookup_generator I).
Abbreviation lookup_next1 := (DNSClient.lookup_next next_arg sched env).
Abbreviation lookup_close1 := (@DNSClient.lookup_close I).
Abbreviation consume1 := (DNSClient.consume next_arg sched env).

Lemma partition_pairs (ps : list (string * option string)) :
  length (filter resolved ps) + length (filter failed ps) = length ps.
Proof.
  induction ps as [|[key [value|]] ps IH]; cbn in *; lia.
Qed.

(** Once the body is over, neither [next] nor [close] does anything. *)
Lemma consume_over acts : forall (l : lgen) o,
  DNSClient.at_phase l = DNSClient.Over o ->
  snd (consume1 acts l) = l /\ DNSClient.received (fst (consume1 acts l)) = [].
Proof.
  induction acts as [|[|] acts IH]; intros l o P; cbn; [auto| |].
  - unfold DNSClient.lookup_next. rewrite P.
    destruct (IH l o P) as (E1 & E2).
    destruct (consume1 acts l) as [obs l']. cbn in *. auto.
  - unfold DNSClient.lookup_close. rewrite P.
    destruct (IH l o P) as (E1 & E2).
    destruct (consume1 acts l) as [obs l']. cbn in *. auto.
Qed.

Lemma in_progress_call kind client names :
  in_progress (call (I := I) kind client names).
Proof. destruct kind; split; reflexivity. Qed.

Lemma in_progress_close (l : lgen) :
  in_progress l ->
  summaries (lookup_close1 l) = [] /\
  DNSClient.pairs (lookup_close1 l) = DNSClient.pairs l /\
  exists o, DNSClient.at_phase (lookup_close1 l) = DNSClient.Over o.
Proof.
  unfold in_progress, summaries, DNSClient.logged, DNSClient.lookup_close.
  intros (Hi & H).
  destruct (DNSClient.at_phase l) as [|g|o]; [| |contradiction]; cbn.
  - eauto.
  - destruct H as (Hg & _). rewrite filter_app, Hg, Hi. eauto.
Qed.

(** One pass through the loop, from a body that is in the loop. *)
Lemma in_progress_loop (l : lgen) g :
  DNSClient.at_phase l = DNSClient.InLoop g -> in_progress l ->
  match DNSClient.loop next_arg sched env g l with
  | (Yield p, l') =>
      in_progress l' /\ DNSClient.kind l' = DNSClient.kind l /\
      DNSClient.pairs l' = DNSClient.pairs l ++ [p]
  | (StopIteration, l') =>
      (exists o, DNSClient.at_phase l' = DNSClient.Over o) /\
      DNSClient.pairs l' = DNSClient.pairs l /\
      exists elapsed,
        summaries l'
        = [InfoSummary (DNSClient.kind l)
             (length (filter resolved (DNSClient.pairs l))) elapsed
             (length (filter failed (DNSClient.pairs l)))]
  | (Raised e, l') =>
      (exists o, DNSClient.at_phase l' = DNSClient.Over o) /\
      DNSClient.pairs l' = DNSClient.pairs l /\
      summaries l' = []
  | (Tau, _) => False
  end.
Proof.
  intros P (Hi & H). rewrite P in H. destruct H as (Hg & Hr & Hf).
  unfold DNSClient.loop.
  pose proof (next_total next_arg sched g) as T.
  pose proof (next_summaries next_arg sched g) as S. rewrite Hg in S.
  destruct (next next_arg sched g) as [[|[key value]| |e] g']; cbn in T, S.
  - discriminate.
  - split; [|split; reflexivity].
    unfold in_progress, tallied. cbn. repeat split.
    + destruct (DNSClient.kind l); [exact Hi|].
      now rewrite filter_app, Hi.
    + exact S.
    + rewrite filter_app, length_app, <- Hr. destruct value; cbn; lia.
    + rewrite filter_app, length_app, <- Hf. destruct value; cbn; lia.
  - split; [eexists; reflexivity|]. split; [reflexivity|].
    eexists. unfold summaries, DNSClient.logged. cbn.
    rewrite !filter_app, S, Hi, Hr, Hf. reflexivity.
  - split; [eexists; reflexivity|]. split; [reflexivity|].
    unfold summaries, DNSClient.logged. cbn. now rewrite filter_app, S, Hi.
Qed.

(** The same for [next], which also starts the body. *)
Lemma in_progress_next (l : lgen) :
  in_progress l ->
  match lookup_next1 l with
  | (Yield p, l') =>
      in_progress l' /\ DNSClient.kind l' = DNSClient.kind l /\
      DNSClient.pairs l' = DNSClient.pairs l ++ [p]
  | (StopIteration, l') =>
      (exists o, DNSClient.at_phase l' = DNSClient.Over o) /\
      DNSClient.pairs l' = DNSClient.pairs l /\
      exists elapsed,
        summaries l'
        = [InfoSummary (DNSClient.kind l)
             (length (filter resolved (DNSClient.pairs l))) elapsed
             (length (filter failed (DNSClient.pairs l)))]
  | (Raised e, l') =>
      (exists o, DNSClient.at_phase l' = DNSClient.Over o) /\
      DNSClient.pairs l' = DNSClient.pairs l /\
      summaries l' = []
  | (Tau, _) => False
  end.
Proof.
  intros H. unfold DNSClient.lookup_next.
  destruct (DNSClient.at_phase l) as [|g|o] eqn:P.
  - destruct H as (Hi & H). rewrite P in H.
    apply (@in_progress_loop (snd (DNSClient.enter env l))
             (fst (DNSClient.enter env l))); [reflexivity|].
    unfold in_progress, tallied. cbn. rewrite H. auto.
  - now apply in_progress_loop.
  - destruct H as (_ & H). now rewrite P in H.
Qed.

Lemma in_progress_summaries (l : lgen) : in_progress l -> summaries l = [].
Proof.
  unfold in_progress, summaries, DNSClient.logged. intros (Hi & H).
  destruct (DNSClient.at_phase l) as [|g|o]; [exact Hi| |contradiction].
  destruct H as (Hg & _). now rewrite filter_app, Hg, Hi.
Qed.

(** Whatever the consumer does: the pairs it receives are the pairs
    yielded, and there is one summary, of those pairs, exactly when it
    drained the sequence. *)
Lemma consume_in_progress acts : forall l : lgen,
  in_progress l ->
  DNSClient.pairs (snd (consume1 acts l))
  = DNSClient.pairs l ++ DNSClient.received (fst (consume1 acts l)) /\
  if DNSClient.drained (fst (consume1 acts l))
  then exists elapsed,
      summaries (snd (consume1 acts l))
      = [InfoSummary (DNSClient.kind l)
           (length (filter resolved (DNSClient.pairs (snd (consume1 acts l)))))
           elapsed
           (length (filter failed (DNSClient.pairs (snd (consume1 acts l)))))]
  else summaries (snd (consume1 acts l)) = [].
Proof.
  induction acts as [|[|] acts IH]; intros l H; cbn [DNSClient.consume].
  - cbn. rewrite app_nil_r. auto using in_progress_summaries.
  - pose proof (@in_progress_next l H) as N.
    destruct (lookup_next1 l) as [[|p| |e] l1]; [contradiction| | |].
    + destruct N as (H1 & K1 & P1). specialize (IH l1 H1).
      destruct (consume1 acts l1) as [obs l2]. cbn in *.
      destruct IH as (P2 & D). rewrite K1 in D. split; [|exact D].
      now rewrite P2, P1, <- app_assoc.
    + destruct N as ((o & O1) & P1 & elapsed & S1).
      destruct (@consume_over acts l1 o O1) as (E1 & E2).
      destruct (consume1 acts l1) as [obs l2]. cbn in *. subst l2.
      rewrite E2, P1, app_nil_r. eauto.
    + destruct N as ((o & O1) & P1 & S1).
      destruct (@consume_over acts l1 o O1) as (E1 & E2).
      destruct (consume1 acts l1) as [obs l2]. cbn in *. subst l2.
      rewrite E2, P1, app_nil_r. auto.
  - destruct (@in_progress_close l H) as (S1 & P1 & o & O1).
    destruct (@consume_over acts (lookup_close1 l) o O1) as (E1 & E2).
    destruct (consume1 acts (lookup_close1 l)) as [obs l2]. cbn in *. subst l2.
    rewrite E2, P1, app_nil_r. auto.
Qed.

End LookupFacts.


(** C8.  For a call of [lookup] or of [reverse_lookup] whose sequence the
    consumer drained, the one summary logged carries the number of pairs
    received whose second component is not None as num_resolved, the number
    of those whose second component is None as num_failed, and the two add
    up to the number of pairs received. *)
Theorem counters_partition_results
    (I : Type) (next_arg : I -> option (string * I)) (sched : nat -> pick)
    (env : Env) (kind : lookup_kind) (client : DNSClient.self) (names : I)
    (acts : list DNSClient.action) :
  let run :=
    DNSClient.consume next_arg sched env acts (call kind client names) in
  DNSClient.drained (fst run) = true ->
  exists num_resolved elapsed num_failed,
    summaries (snd run) = [InfoSummary kind num_resolved elapsed num_failed] /\
    num_resolved = length (filter resolved (DNSClient.received (fst run))) /\
    num_failed = length (filter failed (DNSClient.received (fst run))) /\
    num_resolved + num_failed = length (DNSClient.received (fst run)).
Proof.
  cbv zeta. intros Dr.
  destruct (@consume_in_progress _ next_arg sched env acts _
              (@in_progress_call _ kind client names)) as (P & D).
  rewrite Dr in D. destruct D as (elapsed & D).
  assert (K : DNSClient.kind (call (I := I) kind client names) = kind)
    by now destruct kind.
  assert (P0 : DNSClient.pairs (call (I := I) kind client names) = [])
    by now destruct kind.
  rewrite K in D. rewrite P0 in P. cbn [app] in P. rewrite P in D.
  do 3 eexists. split; [exact D|].
  repeat split. apply partition_pairs.
Qed.

Lemma counters_partition_results_witness :
  let run :=
    DNSClient.consume (@list_next string) (fun round => mkPick round [2])
      loopback
      [DNSClient.CallNext; DNSClient.CallNext; DNSClient.CallNext;
       DNSClient.CallNext]
      (call Hostnames (DNSClient.mkSelf 2)
            ["localhost"; "nowhere.invalid"; "example.invalid"]%string) in
  exists num_resolved elapsed num_failed,
    summaries (snd run) = [InfoSummary Hostnames num_resolved elapsed num_failed] /\
    num_resolved = length (filter resolved (DNSClient.received (fst run))) /\
    num_failed = length (filter failed (DNSClient.received (fst run))) /\
    num_resolved + num_failed = length (DNSClient.received (fst run)).
Proof.
  apply (@counters_partition_results (list string) (@list_next string)
           (fun round => mkPick round [2]) loopback Hostnames
           (DNSClient.mkSelf 2)
           ["localhost"; "nowhere.invalid"; "example.invalid"]%string
           [DNSClient.CallNext; DNSClient.CallNext; DNSClient.CallNext;
            DNSClient.CallNext]).
  vm_compute. reflexivity.
Defined.

(** ** Draining a call of the client over a list of names *)

Section LookupDrain.
Variable sched : nat -> pick.
Variable env : Env.

Abbreviation lgen := (DNSClient.lookup_generator (list string)).
Abbreviation consume1 := (DNSClient.consume (@list_next string) sched env).
Abbreviation iterate1 := (iterate (R := string * option string) (@list_next string) sched).

(** Calls of [next] on the client's generator are calls of [next] on the
    pool's: the pairs received are the results of the pool, and the sequence
    is drained when the pool is exhausted within the calls made. *)
Lemma consume_nexts fuel : forall (l : lgen) g,
  DNSClient.at_phase l = DNSClient.InLoop g ->
  DNSClient.received (fst (consume1 (repeat DNSClient.CallNext fuel) l))
  = fst (fst (iterate1 fuel g)) /\
  (snd (fst (iterate1 fuel g)) = Exhausted ->
   DNSClient.drained (fst (consume1 (repeat DNSClient.CallNext fuel) l)) = true).
Proof.
  induction fuel as [|fuel IH]; intros l g P; [cbn; split; [auto|discriminate]|].
  cbn [repeat DNSClient.consume iterate].
  unfold DNSClient.lookup_next. rewrite P. unfold DNSClient.loop.
  pose proof (next_total (@list_next string) sched g) as T.
  destruct (next (@list_next string) sched g) as [[|[key value]| |e] g'];
    cbn in T; [discriminate| | |].
  - specialize (IH (DNSClient.count key value g' l) g' eq_refl).
    destruct (consume1 (repeat DNSClient.CallNext fuel)
                (DNSClient.count key value g' l)) as [obs l'].
    destruct (iterate1 fuel g') as [[rs e] g'']. cbn in *.
    destruct IH as (E & D). split; [now rewrite E | exact D].
  - destruct (@consume_over _ (@list_next string) sched env
                (repeat DNSClient.CallNext fuel)
                (DNSClient.summarise env g' l) (Some g') eq_refl) as (_ & E).
    destruct (consume1 _ (DNSClient.summarise env g' l)) as [obs l'].
    cbn in *. auto.
  - destruct (@consume_over _ (@list_next string) sched env
                (repeat DNSClient.CallNext fuel)
                (DNSClient.set_phase (DNSClient.Over (Some g')) l)
                (Some g') eq_refl) as (_ & E).
    destruct (consume1 _ (DNSClient.set_phase (DNSClient.Over (Some g')) l))
      as [obs l']. cbn in *. split; [exact E | discriminate].
Qed.

(** A worker that hands back its argument with an answer, and never
    raises: a drained call yields one pair per name. *)
Lemma drained_call kind (n : Z) (names : list string) fuel :
  (1 <= n)%Z ->
  (forall name, exists answer,
      DNSClient.worker env kind name = Return (name, answer)) ->
  length names < fuel ->
  let run :=
    consume1 (repeat DNSClient.CallNext fuel)
             (call kind (DNSClient.mkSelf n) names) in
  DNSClient.drained (fst run) = true /\
  Permutation (map fst (DNSClient.received (fst run))) names /\
  (forall p, In p (DNSClient.received (fst run)) ->
             DNSClient.worker env kind (fst p) = Return p).
Proof.
  intros Hn Hw Hf run.
  destruct fuel as [|fuel]; [lia|].
  pose (l0 := call kind (DNSClient.mkSelf n) names).
  pose (g := threadpool_generator (Some n) (DNSClient.worker env kind) names).
  assert (Hrun : run = consume1 (repeat DNSClient.CallNext (S fuel))
                         (snd (DNSClient.enter env l0))).
  { unfold run. fold l0. cbn [repeat DNSClient.consume].
    replace (DNSClient.lookup_next (@list_next string) sched env l0)
      with (DNSClient.lookup_next (@list_next string) sched env
              (snd (DNSClient.enter env l0))); [reflexivity|].
    unfold l0. now destruct kind. }
  assert (P : DNSClient.at_phase (snd (DNSClient.enter env l0))
              = DNSClient.InLoop g) by now destruct kind.
  destruct (consume_nexts (S fuel) _ P) as (E & D).
  destruct (iterate_from_start sched (DNSClient.worker env kind) names Hn Hf)
    as (rs & e & g' & It & (done & M & Y & Pf & St) & _).
  fold g in It. rewrite It in E, D. cbn [fst snd] in E, D. cbn in M, St.
  rewrite Hrun, E.
  assert (Hdone : map fst rs = done /\
                  forall p, In p rs -> DNSClient.worker env kind (fst p) = Return p).
  { clear - M Hw. revert rs M.
    induction done as [|a done IH]; intros [|r rs] M; try discriminate.
    - split; [reflexivity | intros p []].
    - injection M as Fa M. destruct (IH rs M) as (E1 & E2).
      destruct (Hw a) as (answer & Wa). rewrite Wa in Fa.
      injection Fa as <-. cbn. split; [now rewrite E1|].
      intros p [<-|Hp]; [exact Wa | now apply E2]. }
  destruct Hdone as (Hfst & Hres).
  destruct e as [|x|]; [|exfalso|contradiction].
  - destruct St as (O & _). repeat split; auto.
    rewrite Hfst. now symmetry.
  - destruct St as (a & rest & _ & Fa).
    destruct (Hw a) as (answer & Wa). congruence.
Qed.

End LookupDrain.

(** X1.  When [socket.gethostbyname] raises nothing but OSError and its
    subclasses, a client of num_threads >= 1 that is asked N hostnames and
    drained yields, under every schedule, exactly one pair per hostname,
    each with the hostname it was asked, and with the address the resolver
    returned for it or None when the resolver raised. *)
Theorem lookup_pairs_every_hostname
    (sched : nat -> pick) (env : Env) (n : Z) (hostnames : list string)
    (fuel : nat) :
  (1 <= n)%Z ->
  (forall hostname e,
      socket_gethostbyname env hostname = Raise e ->
      issubclass e OSError = true) ->
  length hostnames < fuel ->
  let run :=
    DNSClient.consume (@list_next string) sched env
      (repeat DNSClient.CallNext fuel)
      (DNSClient.lookup (DNSClient.mkSelf n) hostnames) in
  DNSClient.drained (fst run) = true /\
  Permutation (map fst (DNSClient.received (fst run))) hostnames /\
  forall hostname address,
    In (hostname, address) (DNSClient.received (fst run)) ->
    match address with
    | Some a => socket_gethostbyname env hostname = Return a
    | None => exists e, socket_gethostbyname env hostname = Raise e
    end.
Proof.
  intros Hn Herr Hf.
  assert (Hw : forall name, exists answer,
             DNSClient.worker env Hostnames name = Return (name, answer)).
  { intros name. cbn. destruct (socket_gethostbyname env name) as [a|e] eqn:G.
    - rewrite (gethostbyname_resolved _ _ G). eauto.
    - rewrite (gethostbyname_failed _ _ G), (Herr _ _ G). eauto. }
  destruct (@drained_call sched env Hostnames n hostnames fuel Hn Hw Hf) as (D & P & W).
  cbn [call] in D, P, W. cbv zeta. repeat split; auto.
  intros hostname address Hin. specialize (W _ Hin). cbn in W.
  destruct (socket_gethostbyname env hostname) as [a|e] eqn:G.
  - rewrite (gethostbyname_resolved _ _ G) in W. now injection W as <-.
  - rewrite (gethostbyname_failed _ _ G), (Herr _ _ G) in W.
    injection W as <-. eauto.
Qed.

Lemma lookup_pairs_every_hostname_witness :
  let run :=
    DNSClient.consume (@list_next string) (fun round => mkPick (2 * round) [1])
      hosts (repeat DNSClient.CallNext 4)
      (DNSClient.lookup (DNSClient.mkSelf 2)
         ["web2.example.com"; "nowhere.invalid"; "localhost"]%string) in
  DNSClient.drained (fst run) = true /\
  Permutation (map fst (DNSClient.received (fst run)))
              ["web2.example.com"; "nowhere.invalid"; "localhost"]%string /\
  forall hostname address,
    In (hostname, address) (DNSClient.received (fst run)) ->
    match address with
    | Some a => socket_gethostbyname hosts hostname = Return a
    | None => exists e, socket_gethostbyname hosts hostname = Raise e
    end.
Proof.
  apply (@lookup_pairs_every_hostname (fun round => mkPick (2 * round) [1])
           hosts 2%Z ["web2.example.com"; "nowhere.invalid"; "localhost"]%string
           4).
  - lia.
  - intros hostname e. cbn.
    destruct (String.eqb hostname "localhost"); [discriminate|].
    destruct (String.eqb hostname "web2.example.com"); [discriminate|].
    intros H. injection H as <-. reflexivity.
  - simpl. lia.
Defined.

(** X2.  When [socket.gethostbyaddr] and [socket.getfqdn] raise nothing but
    OSError, UnicodeError and their subclasses, a client of num_threads >= 1
    that is asked N addresses and drained yields, under every schedule,
    exactly one pair per address, each with the address it was asked, and
    with the fully qualified name of the host found for it, or None when
    either call raised. *)
Theorem reverse_lookup_pairs_every_address
    (sched : nat -> pick) (env : Env) (n : Z) (addresses : list string)
    (fuel : nat) :
  (1 <= n)%Z ->
  (forall address e,
      socket_gethostbyaddr env address = Raise e ->
      issubclass e OSError || issubclass e UnicodeError = true) ->
  (forall name e,
      socket_getfqdn env name = Raise e ->
      issubclass e OSError || issubclass e UnicodeError = true) ->
  length addresses < fuel ->
  let run :=
    DNSClient.consume (@list_next string) sched env
      (repeat DNSClient.CallNext fuel)
      (DNSClient.reverse_lookup (DNSClient.mkSelf n) addresses) in
  DNSClient.drained (fst run) = true /\
  Permutation (map fst (DNSClient.received (fst run))) addresses /\
  forall address hostname,
    In (address, Some hostname) (DNSClient.received (fst run)) ->
    exists name aliaslist ipaddrlist,
      socket_gethostbyaddr env address = Return (name, aliaslist, ipaddrlist) /\
      socket_getfqdn env name = Return hostname.
Proof.
  intros Hn Haddr Hfqdn Hf.
  assert (Hw : forall name, exists answer,
             DNSClient.worker env Addresses name = Return (name, answer)).
  { intros address. cbn. unfold DNSClient._gethostbyaddr.
    destruct (socket_gethostbyaddr env address) as [[[name al] il]|e] eqn:G; cbn.
    - destruct (socket_getfqdn env name) as [h|e] eqn:Q; cbn; [eauto|].
      specialize (Hfqdn _ _ Q). unfold caught_by. cbn.
      rewrite orb_false_r, Hfqdn. cbn. eauto.
    - specialize (Haddr _ _ G). unfold caught_by. cbn.
      rewrite orb_false_r, Haddr. cbn. eauto. }
  destruct (@drained_call sched env Addresses n addresses fuel Hn Hw Hf) as (D & P & W).
  cbn [call] in D, P, W. cbv zeta. repeat split; auto.
  intros address hostname Hin. specialize (W _ Hin). cbn in W.
  unfold DNSClient._gethostbyaddr in W.
  destruct (socket_gethostbyaddr env address) as [[[name al] il]|e] eqn:G;
    cbn in W.
  - destruct (socket_getfqdn env name) as [h|e] eqn:Q; cbn in W.
    + injection W as <-. eauto.
    + specialize (Hfqdn _ _ Q). unfold caught_by in W. cbn in W.
      rewrite orb_false_r, Hfqdn in W. discriminate.
  - specialize (Haddr _ _ G). unfold caught_by in W. cbn in W.
    rewrite orb_false_r, Haddr in W. discriminate.
Qed.

Lemma reverse_lookup_pairs_every_address_witness :
  let run :=
    DNSClient.consume (@list_next string) (fun round => mkPick round [])
      loopback (repeat DNSClient.CallNext 4)
      (DNSClient.reverse_lookup (DNSClient.mkSelf 1)
         ["127.0.0.1"; "a..b"; "192.0.2.1"]%string) in
  DNSClient.drained (fst run) = true /\
  Permutation (map fst (DNSClient.received (fst run)))
              ["127.0.0.1"; "a..b"; "192.0.2.1"]%string /\
  forall address hostname,
    In (address, Some hostname) (DNSClient.received (fst run)) ->
    exists name aliaslist ipaddrlist,
      socket_gethostbyaddr loopback address
      = Return (name, aliaslist, ipaddrlist) /\
      socket_getfqdn loopback name = Return hostname.
Proof.
  apply (@reverse_lookup_pairs_every_address (fun round => mkPick round [])
           loopback 1%Z ["127.0.0.1"; "a..b"; "192.0.2.1"]%string 4).
  - lia.
  - intros address e. cbn.
    destruct (empty_label true address);
      [intros H; injection H as <-; reflexivity|].
    destruct (String.eqb address "127.0.0.1"); [discriminate|].
    intros H. injection H as <-. reflexivity.
  - intros name e. cbn. discriminate.
  - simpl. lia.
Defined.

(** ** Strings and dicts *)

Section StrFacts.

Lemma len_append (s t : string) : Str.len (s +++ t) = Str.len s + Str.len t.
Proof.
  unfold Str.len. induction s as [|c s IH]; cbn; [reflexivity | now rewrite IH].
Qed.

Lemma len_spaces n : Str.len (Str.spaces n) = n.
Proof.
  unfold Str.len. induction n as [|n IH]; cbn; [reflexivity | now rewrite IH].
Qed.

Lemma len_ljust s width : Str.len (Str.ljust s width) = Nat.max (Str.len s) width.
Proof. unfold Str.ljust. rewrite len_append, len_spaces. lia. Qed.

Lemma append_assoc (s t u : string) : (s +++ t) +++ u = s +++ t +++ u.
Proof. induction s as [|c s IH]; cbn; [reflexivity | now rewrite IH]. Qed.

Lemma append_empty_r (s : string) : s +++ "" = s.
Proof. induction s as [|c s IH]; cbn; [reflexivity | now rewrite IH]. Qed.

Lemma endswith_append (s suffix : string) :
  Str.endswith (s +++ suffix) suffix = true.
Proof.
  induction s as [|c s IH]; cbn.
  - destruct suffix; cbn; [reflexivity|].
    now rewrite Ascii.eqb_refl, String.eqb_refl.
  - rewrite IH. apply orb_true_r.
Qed.

Lemma before_no_sep sep (s : string) :
  Str.contains sep s = false -> Str.before sep s = s.
Proof.
  induction s as [|c s IH]; cbn; [reflexivity|]. intros H.
  apply orb_false_elim in H. destruct H as (H1 & H2).
  now rewrite H1, IH.
Qed.

Lemma before_append sep (s rest : string) :
  Str.contains sep s = false ->
  Str.before sep (s +++ String.String sep rest) = s.
Proof.
  induction s as [|c s IH]; cbn.
  - now rewrite Ascii.eqb_refl.
  - intros H. apply orb_false_elim in H. destruct H as (H1 & H2).
    now rewrite H1, IH.
Qed.

End StrFacts.

Section DictFacts.
Context {V : Type}.
Implicit Types (d : Dict.t V) (key : string).

Lemma get_set_same d key (value : V) :
  Dict.get (Dict.set d key value) key = Some value.
Proof.
  induction d as [|[k v] d IH]; cbn.
  - now rewrite String.eqb_refl.
  - destruct (String.eqb k key) eqn:E; cbn; rewrite E; auto.
Qed.

Lemma get_set_other d key key' (value : V) :
  key <> key' -> Dict.get (Dict.set d key value) key' = Dict.get d key'.
Proof.
  intros N. induction d as [|[k v] d IH]; cbn.
  - apply String.eqb_neq in N. now rewrite N.
  - destruct (String.eqb k key) eqn:E; cbn.
    + apply String.eqb_eq in E. subst k.
      apply String.eqb_neq in N. now rewrite N.
    + destruct (String.eqb k key'); auto.
Qed.

Lemma get_set d key key' (value : V) :
  Dict.get (Dict.set d key value) key'
  = if String.eqb key key' then Some value else Dict.get d key'.
Proof.
  destruct (String.eqb key key') eqn:E.
  - apply String.eqb_eq in E. subst. apply get_set_same.
  - apply String.eqb_neq in E. now apply get_set_other.
Qed.

Lemma get_In d key (value : V) : Dict.get d key = Some value -> In (key, value) d.
Proof.
  induction d as [|[k v] d IH]; cbn; [discriminate|].
  destruct (String.eqb k key) eqn:E.
  - apply String.eqb_eq in E. intros H. injection H as <-. subst. now left.
  - auto.
Qed.

End DictFacts.

Lemma find_app {X : Type} (f : X -> bool) (l1 l2 : list X) :
  find f (l1 ++ l2) = match find f l1 with Some x => Some x | None => find f l2 end.
Proof.
  induction l1 as [|x l1 IH]; cbn; [reflexivity|]. now destruct (f x).
Qed.

(** ** config.py *)

Lemma servers_ip_to_host_fold (servers : Dict.t Config.Connection) :
  forall (ips : Dict.t string) (address : string),
    Dict.get
      (fold_left
         (fun ips item =>
            let '(hostname, server) := item in
            match Config.server_type server with
            | None => ips
            | Some server => Dict.set ips (Config.ip server) hostname
            end) servers ips) address
    = match find (fun item =>
                    match Config.server_type (snd item) with
                    | Some server => String.eqb (Config.ip server) address
                    | None => false
                    end) (rev servers) with
      | Some item => Some (fst item)
      | None => Dict.get ips address
      end.
Proof.
  induction servers as [|[hostname server] servers IH]; intros ips address.
  - reflexivity.
  - cbn [fold_left rev]. rewrite IH, find_app. cbn [find snd fst].
    destruct (find _ (rev servers)); [reflexivity|].
    destruct (Config.server_type server) as [st|]; [|reflexivity].
    rewrite get_set. now destruct (String.eqb (Config.ip st) address).
Qed.

(** X3.  [servers_ip_to_host] maps an address to the key of the last entry
    of SERVERS whose server type has that address, and has no other key; so
    with the SERVERS of the module, where 'git' shares the configuration of
    'staging4', the address of the git server is mapped to 'staging4'. *)
Theorem servers_ip_to_host_last_wins
    (servers : Dict.t Config.Connection) (address : string) :
  Dict.get (Config.servers_ip_to_host servers) address
  = option_map fst
      (find (fun item =>
               match Config.server_type (snd item) with
               | Some server => String.eqb (Config.ip server) address
               | None => false
               end) (rev servers)) /\
  Dict.get (Config.servers_ip_to_host Config.SERVERS) "13.54.91.243"
  = Some "staging4"%string.
Proof.
  split; [|reflexivity].
  unfold Config.servers_ip_to_host. rewrite servers_ip_to_host_fold.
  now destruct (find _ (rev servers)).
Qed.

(** X4.  [get_connection] looks at nothing but the first label of the
    hostname: an alias and any hostname that starts with it and a dot get
    the same answer, which is the connection SERVERS holds for the alias,
    and KeyError when it holds none. *)
Theorem get_connection_first_label
    (servers : Dict.t Config.Connection) (label rest : string) :
  Str.contains "."%char label = false ->
  Config.get_connection servers (label +++ "." +++ rest)
  = Config.get_connection servers label /\
  (forall connection,
      Config.get_connection servers label = Done connection <->
      Dict.get servers label = Some connection) /\
  (Dict.get servers label = None ->
   exists message,
     Config.get_connection servers (label +++ "." +++ rest)
     = Fails (KeyError message)).
Proof.
  intros H. unfold Config.get_connection.
  change ("." +++ rest) with (String.String "."%char rest).
  rewrite (before_append _ _ rest H), (before_no_sep _ _ H).
  repeat split.
  - destruct (Dict.get servers label); congruence.
  - intros ->. reflexivity.
  - intros ->. eauto.
Qed.

Lemma get_connection_first_label_witness :
  Config.get_connection Config.SERVERS ("web2" +++ "." +++ "example.com")
  = Config.get_connection Config.SERVERS "web2" /\
  (forall connection,
      Config.get_connection Config.SERVERS "web2" = Done connection <->
      Dict.get Config.SERVERS "web2" = Some connection) /\
  (Dict.get Config.SERVERS "web2" = None ->
   exists message,
     Config.get_connection Config.SERVERS ("web2" +++ "." +++ "example.com")
     = Fails (KeyError message)).
Proof.
  apply (@get_connection_first_label Config.SERVERS "web2" "example.com").
  reflexivity.
Defined.

(** ** commands/project/dns.py *)

Section CheckAll.
Variable ips : Dict.t string.

Abbreviation pair := (string * option string)%type.

Lemma get_append_to (groups : Dict.t (list string)) server hostname key :
  Dict.get (DNSCommand.append_to groups server hostname) key
  = if String.eqb server key
    then Some (match Dict.get groups server with
               | Some hostnames => hostnames ++ [hostname]
               | None => [hostname]
               end)
    else Dict.get groups key.
Proof. unfold DNSCommand.append_to. apply get_set. Qed.

Lemma sort_pair_eq groups longest other hostname address :
  DNSCommand.sort_pair ips (groups, longest, other) (hostname, address)
  = match DNSCommand.server_of ips address with
    | Some server =>
        (DNSCommand.append_to groups server hostname,
         Nat.max longest (Str.len hostname), other)
    | None => (groups, longest, other ++ [(hostname, address)])
    end.
Proof. reflexivity. Qed.

(** The loop, from any state: what it adds to [other] and to each group,
    and how [longest] grows. *)
Lemma sort_pairs_fold (lookups : list pair) :
  forall (groups : Dict.t (list string)) (longest : nat) (other : list pair),
    snd (fold_left (DNSCommand.sort_pair ips) lookups (groups, longest, other))
    = other ++ filter (fun p => match DNSCommand.server_of ips (snd p) with
                                | None => true
                                | Some _ => false
                                end) lookups /\
    (forall server,
        Dict.get
          (fst (fst (fold_left (DNSCommand.sort_pair ips) lookups
                               (groups, longest, other)))) server
        = match map fst
                  (filter (fun p => match DNSCommand.server_of ips (snd p) with
                                    | Some s => String.eqb s server
                                    | None => false
                                    end) lookups) with
          | [] => Dict.get groups server
          | added => Some (match Dict.get groups server with
                           | Some before => before ++ added
                           | None => added
                           end)
          end) /\
    longest
    <= snd (fst (fold_left (DNSCommand.sort_pair ips) lookups
                           (groups, longest, other))) /\
    (forall p, In p lookups -> DNSCommand.server_of ips (snd p) <> None ->
               Str.len (fst p)
               <= snd (fst (fold_left (DNSCommand.sort_pair ips) lookups
                                      (groups, longest, other)))).
Proof.
  induction lookups as [|[hostname address] lookups IH];
    intros groups longest other.
  - cbn. rewrite app_nil_r. repeat split; auto. intros p [].
  - cbn [fold_left]. rewrite sort_pair_eq. cbn [filter snd fst map].
    destruct (DNSCommand.server_of ips address) as [server|] eqn:Own.
    + specialize (IH (DNSCommand.append_to groups server hostname)
                     (Nat.max longest (Str.len hostname)) other).
      destruct IH as (O & G & L & M).
      repeat split.
      * exact O.
      * intros key. rewrite G, get_append_to.
        destruct (String.eqb server key) eqn:E.
        -- apply String.eqb_eq in E. subst key. cbn [map fst].
           destruct (map fst (filter _ lookups)) as [|h hs].
           ++ reflexivity.
           ++ destruct (Dict.get groups server); cbn;
                now rewrite <- ?app_assoc.
        -- reflexivity.
      * lia.
      * intros p [<-|Hp] Hk; [cbn [fst]; lia | now apply M].
    + specialize (IH groups longest (other ++ [(hostname, address)])).
      destruct IH as (O & G & L & M).
      repeat split; auto.
      * now rewrite O, <- app_assoc.
      * intros p [<-|Hp] Hk; [cbn in Hk; congruence | now apply M].
Qed.

Lemma longest_fold (l : list string) : forall best,
  let step := fun best x => if Str.len best <? Str.len x then x else best in
  (fold_left step l best = best \/ In (fold_left step l best) l) /\
  Str.len best <= Str.len (fold_left step l best) /\
  forall s, In s l -> Str.len s <= Str.len (fold_left step l best).
Proof.
  cbv zeta. induction l as [|x l IH]; intros best; cbn [fold_left].
  - repeat split; auto. intros s [].
  - destruct (IH (if Str.len best <? Str.len x then x else best)) as (I & B & A).
    destruct (Str.len best <? Str.len x) eqn:E.
    + apply Nat.ltb_lt in E. repeat split.
      * right. destruct I as [->|I]; [now left | now right].
      * lia.
      * intros s [<-|Hs]; [exact B | now apply A].
    + apply Nat.ltb_ge in E. repeat split.
      * destruct I as [I|I]; [now left | right; now right].
      * exact B.
      * intros s [<-|Hs]; [lia | now apply A].
Qed.

Lemma max_by_len_longest (strings : list string) longest :
  DNSCommand.max_by_len strings = Return longest ->
  In longest strings /\ forall s, In s strings -> Str.len s <= Str.len longest.
Proof.
  destruct strings as [|s0 rest]; [discriminate|].
  unfold DNSCommand.max_by_len. intros H. injection H as <-.
  destruct (longest_fold rest s0) as (I & B & A). split.
  - destruct I as [->|I]; [now left | now right].
  - intros s [<-|Hs]; [exact B | now apply A].
Qed.

Lemma insert_perm (x : pair) (l : list pair) :
  Permutation (DNSCommand.insert x l) (x :: l).
Proof.
  induction l as [|y l IH]; cbn; [reflexivity|].
  destruct (String.ltb _ _); [reflexivity|].
  rewrite IH. apply perm_swap.
Qed.

Lemma sorted_perm (l : list pair) : Permutation (DNSCommand.sorted l) l.
Proof.
  unfold DNSCommand.sorted.
  assert (F : forall l acc,
             Permutation (fold_left (fun s x => DNSCommand.insert x s) l acc)
                         (l ++ acc)).
  { clear l. induction l as [|x l IH]; intros acc; cbn; [reflexivity|].
    rewrite IH, insert_perm. symmetry. apply Permutation_middle. }
  rewrite F. now rewrite app_nil_r.
Qed.

Lemma error_line_shape longest reversed_mapping hostname address :
  exists tail,
    DNSCommand.error_line longest reversed_mapping (hostname, address)
    = Str.ljust hostname longest +++ " -> " +++ tail.
Proof.
  unfold DNSCommand.error_line.
  destruct (match Dict.get reversed_mapping _ with
            | Some reverse => reverse | None => None end) as [name|];
    [destruct (DNSCommand.truthy (Some name))|]; eauto.
  rewrite !append_assoc. eauto.
Qed.

End CheckAll.

Lemma sort_pairs_other (ips : Dict.t string)
    (lookups : list (string * option string)) :
  snd (DNSCommand.sort_pairs ips lookups)
  = filter (fun p => match DNSCommand.server_of ips (snd p) with
                     | None => true
                     | Some _ => false
                     end) lookups.
Proof.
  unfold DNSCommand.sort_pairs.
  now destruct (sort_pairs_fold ips lookups [] 0 []) as (O & _).
Qed.

(** X5.  The loop of [check_all] over the pairs of [dns.lookup]: [other]
    holds, in order of arrival, exactly the pairs whose address is None or
    is the address of none of our servers; the group of a server holds, in
    order of arrival, exactly the hostnames whose address belongs to it,
    and a server with no such hostname has no group; [longest] is at least
    the length of every grouped hostname. *)
Theorem sort_pairs_by_server (ips : Dict.t string)
    (lookups : list (string * option string)) :
  let final := DNSCommand.sort_pairs ips lookups in
  snd final
  = filter (fun p => match DNSCommand.server_of ips (snd p) with
                     | None => true
                     | Some _ => false
                     end) lookups /\
  (forall server,
      Dict.get (fst (fst final)) server
      = match map fst
                (filter (fun p => match DNSCommand.server_of ips (snd p) with
                                  | Some s => String.eqb s server
                                  | None => false
                                  end) lookups) with
        | [] => None
        | hostnames => Some hostnames
        end) /\
  (forall hostname address,
      In (hostname, address) lookups ->
      DNSCommand.server_of ips address <> None ->
      Str.len hostname <= snd (fst final)).
Proof.
  cbv zeta. unfold DNSCommand.sort_pairs.
  destruct (sort_pairs_fold ips lookups [] 0 []) as (O & G & _ & M).
  repeat split.
  - exact O.
  - intros server. rewrite G. cbn [Dict.get]. now destruct (map fst _).
  - intros hostname address Hin Hk. apply (M (hostname, address) Hin Hk).
Qed.

(** X6.  When every hostname resolves to the address of one of our
    servers, the lookups of none included, [check_all] does not finish:
    after the heading of the errors it takes the longest of an empty list,
    and ValueError goes up before any reverse lookup. *)
Theorem check_all_fails_without_errors (ips : Dict.t string)
    (reverse_lookup : list string -> list (string * option string))
    (lookups : list (string * option string)) :
  (forall p, In p lookups -> DNSCommand.server_of ips (snd p) <> None) ->
  snd (DNSCommand.sort_pairs ips lookups) = [] /\
  DNSCommand.show_errors reverse_lookup (snd (DNSCommand.sort_pairs ips lookups))
  = Raise ValueError.
Proof.
  intros Hk.
  assert (E : snd (DNSCommand.sort_pairs ips lookups) = []).
  { rewrite sort_pairs_other.
    induction lookups as [|p l IH]; [reflexivity|].
    cbn. destruct (DNSCommand.server_of ips (snd p)) eqn:S.
    - apply IH. intros q Hq. apply Hk. now right.
    - exfalso. apply (Hk p); [now left | exact S]. }
  now rewrite E.
Qed.

Lemma check_all_fails_without_errors_witness :
  snd (DNSCommand.sort_pairs (Config.servers_ip_to_host Config.SERVERS)
         [("shop.example.nz", Some "52.39.131.4");
          ("blog.example.nz", Some "13.54.91.243")]%string) = [] /\
  DNSCommand.show_errors (fun _ => [])
    (snd (DNSCommand.sort_pairs (Config.servers_ip_to_host Config.SERVERS)
            [("shop.example.nz", Some "52.39.131.4");
             ("blog.example.nz", Some "13.54.91.243")]%string))
  = Raise ValueError.
Proof.
  apply (@check_all_fails_without_errors
           (Config.servers_ip_to_host Config.SERVERS) (fun _ => [])
           [("shop.example.nz", Some "52.39.131.4");
            ("blog.example.nz", Some "13.54.91.243")]%string).
  intros p [<-|[<-|[]]]; discriminate.
Defined.



(** X8.  The addresses [check_all] hands to [dns.reverse_lookup] are never
    None nor empty, and each is the address some hostname resolved to that
    belongs to none of our servers. *)
Theorem reverse_lookups_of_foreign_addresses (ips : Dict.t string)
    (lookups : list (string * option string)) (address : string) :
  In address (DNSCommand.addresses (snd (DNSCommand.sort_pairs ips lookups))) ->
  address <> ""%string /\
  Dict.get ips address = None /\
  exists hostname, In (hostname, Some address) lookups.
Proof.
  rewrite sort_pairs_other. unfold DNSCommand.addresses. intros H.
  apply in_flat_map in H. destruct H as ([hostname a] & Hin & Ha).
  apply filter_In in Hin. destruct Hin as (Hin & Hu). cbn [snd] in *.
  destruct a as [a|]; [|contradiction].
  cbn in Ha. destruct (String.eqb a "") eqn:E; cbn in Ha; [contradiction|].
  destruct Ha as [<-|[]]. repeat split.
  - now apply String.eqb_neq.
  - cbn in Hu. now destruct (Dict.get ips a).
  - eauto.
Qed.

Lemma reverse_lookups_of_foreign_addresses_witness :
  "192.0.2.7"%string <> ""%string /\
  Dict.get (Config.servers_ip_to_host Config.SERVERS) "192.0.2.7" = None /\
  exists hostname,
    In (hostname, Some "192.0.2.7"%string)
       [("shop.example.nz", Some "52.39.131.4"); ("gone.nz", None);
        ("old.example.nz", Some "192.0.2.7")]%string.
Proof.
  apply (@reverse_lookups_of_foreign_addresses
           (Config.servers_ip_to_host Config.SERVERS)
           [("shop.example.nz", Some "52.39.131.4"); ("gone.nz", None);
            ("old.example.nz", Some "192.0.2.7")]%string "192.0.2.7").
  simpl. auto.
Defined.

(** ** commands/utils/text.py *)

(** X9.  [ensure_slash] returns a string that ends with a slash, leaves
    alone a string that already does, and so changes nothing when applied a
    second time. *)
Theorem ensure_slash_idempotent (s : string) :
  Str.endswith (Text.ensure_slash s) "/" = true /\
  Text.ensure_slash (Text.ensure_slash s) = Text.ensure_slash s /\
  (if Str.endswith s "/" then Text.ensure_slash s = s
   else Text.ensure_slash s = s +++ "/").
Proof.
  unfold Text.ensure_slash.
  destruct (Str.endswith s "/") eqn:E; cbn [negb].
  - rewrite E. cbn. auto.
  - rewrite endswith_append. cbn. auto.
Qed.

Lemma first_unit_spec (seconds : Z) (table : list (string * Z)) :
  (exists key length, In (key, length) table /\ (1 < seconds / length)%Z) ->
  exists before key length after,
    table = before ++ (key, length) :: after /\
    (forall p, In p before -> (seconds / snd p <= 1)%Z) /\
    (1 < seconds / length)%Z /\
    Text.first_unit seconds table
    = Return (Str.format_comma (seconds / length) +++ " " +++ key +++ "s").
Proof.
  induction table as [|[k len] table IH]; intros (key & length & Hin & Hc).
  - contradiction.
  - cbn [Text.first_unit]. destruct (1 <? seconds / len)%Z eqn:E.
    + apply Z.ltb_lt in E. exists [], k, len, table. repeat split; auto.
      intros p [].
    + apply Z.ltb_ge in E. destruct Hin as [Heq|Hin].
      * injection Heq as -> ->. lia.
      * destruct IH as (before & k' & len' & after & -> & Hb & Hc' & Hr);
          [now eauto|].
        exists ((k, len) :: before), k', len', after. repeat split; auto.
        intros p [<-|Hp]; [exact E | now apply Hb].
Qed.

(** X10.  For an int of 2 or more, [duration] never reaches the raise that
    follows its loop: it names the first unit of the table, from years down,
    that fits at least twice, with the number of whole units, which is 2 or
    more; a unit that fits only once is passed over for a smaller one. *)
Theorem duration_first_unit_twice (seconds : Z) :
  (2 <= seconds)%Z ->
  exists before key length after,
    Text.DURATIONS = before ++ (key, length) :: after /\
    (forall p, In p before -> (seconds / snd p <= 1)%Z) /\
    (2 <= seconds / length)%Z /\
    Text.duration seconds
    = Return (Str.format_comma (seconds / length) +++ " " +++ key +++ "s").
Proof.
  intros H. unfold Text.duration.
  destruct (seconds <? 0)%Z eqn:E0; [lia|].
  destruct (seconds =? 0)%Z eqn:E1; [lia|].
  destruct (seconds <? 2)%Z eqn:E2; [lia|].
  destruct (first_unit_spec seconds Text.DURATIONS)
    as (before & key & length & after & D & B & C & R).
  - exists "second"%string, 1%Z. split; [cbn; auto 10|].
    rewrite Z.div_1_r. lia.
  - exists before, key, length, after. repeat split; auto. lia.
Qed.

Lemma duration_first_unit_twice_witness :
  exists before key length after,
    Text.DURATIONS = before ++ (key, length) :: after /\
    (forall p, In p before -> (119 / snd p <= 1)%Z) /\
    (2 <= 119 / length)%Z /\
    Text.duration 119
    = Return (Str.format_comma (119 / length) +++ " " +++ key +++ "s").
Proof.
  apply (@duration_first_unit_twice 119%Z). lia.
Defined.

(** X11.  [duration] raises ValueError on a negative int and on no other
    int. *)
Theorem duration_raises_only_on_negative (seconds : Z) :
  if (seconds <? 0)%Z then Text.duration seconds = Raise ValueError
  else exists text, Text.duration seconds = Return text.
Proof.
  destruct (seconds <? 0)%Z eqn:E0.
  - unfold Text.duration. now rewrite E0.
  - destruct (Z_lt_le_dec seconds 2) as [Hs|Hs].
    + unfold Text.duration. rewrite E0.
      destruct (seconds =? 0)%Z; [eauto|].
      destruct (seconds <? 2)%Z eqn:E2; [eauto | lia].
    + unfold Text.duration. rewrite E0.
      destruct (seconds =? 0)%Z eqn:E1; [lia|].
      destruct (seconds <? 2)%Z eqn:E2; [lia|].
      destruct (first_unit_spec seconds Text.DURATIONS)
        as (before & key & length & after & D & B & C & R); [|eauto].
      exists "second"%string, 1%Z. split; [cbn; auto 10|].
      rewrite Z.div_1_r. lia.
Qed.

(** X12.  In [join_and] the Oxford comma is written from three parts on
    and is the single character by which the two results differ; with two
    parts or fewer the flag changes nothing. *)
Theorem join_and_oxford_comma (parts : list string) :
  if 3 <=? length parts
  then Str.len (Text.join_and parts true)
       = S (Str.len (Text.join_and parts false)) /\
       Text.join_and parts true
       = Str.join ", " (removelast parts) +++ ", and " +++ last parts ""%string
  else Text.join_and parts true = Text.join_and parts false.
Proof.
  destruct parts as [|p parts]; [reflexivity|].
  unfold Text.join_and.
  set (whole := p :: parts).
  assert (L : length (removelast whole) = length parts).
  { assert (whole <> []) by discriminate.
    pose proof (app_removelast_last ""%string H) as E.
    apply (f_equal (@length _)) in E. rewrite length_app in E.
    change (length whole) with (S (length parts)) in E.
    cbn [length] in E. lia. }
  change (length whole) with (S (length parts)).
  destruct (removelast whole) as [|q init] eqn:R.
  - cbn in L. destruct parts; [reflexivity | discriminate].
  - cbn [length] in *. cbn [andb].
    destruct (3 <=? S (length parts)) eqn:E.
    + apply Nat.leb_le in E.
      replace (2 <=? S (length init)) with true
        by (symmetry; apply Nat.leb_le; lia).
      split.
      * rewrite !len_append. cbn. lia.
      * now rewrite append_assoc.
    + apply Nat.leb_gt in E.
      replace (2 <=? S (length init)) with false
        by (symmetry; apply Nat.leb_gt; lia).
      reflexivity.
Qed.

Lemma len_string_of_list (l : list Ascii.ascii) :
  Str.len (String.string_of_list_ascii l) = length l.
Proof.
  unfold Str.len. induction l as [|c l IH]; cbn; [reflexivity | now rewrite IH].
Qed.

Lemma get_lt (s : string) : forall i,
  i < Str.len s ->
  exists c, String.get i s = Some c /\ In c (String.list_ascii_of_string s).
Proof.
  unfold Str.len. induction s as [|c s IH]; intros i H; cbn in *; [lia|].
  destruct i as [|i]; [now eauto|].
  destruct (IH i) as (c' & G & Hin); [lia|]. eauto.
Qed.

(** X13.  [create_secret_key] returns 50 characters whatever [length] it is
    given, each of them a character of its alphabet, whatever the draws. *)
Theorem create_secret_key_fifty (random : nat -> nat) (length : Z) :
  Str.len (Text.create_secret_key random length) = 50 /\
  forall c,
    In c (String.list_ascii_of_string (Text.create_secret_key random length)) ->
    In c (String.list_ascii_of_string Text.alphabet).
Proof.
  unfold Text.create_secret_key. split.
  - now rewrite len_string_of_list, length_map, length_seq.
  - intros c. rewrite String.list_ascii_of_string_of_list_ascii.
    intros H. apply in_map_iff in H. destruct H as (i & <- & _).
    unfold Text.random_choice.
    destruct (@get_lt Text.alphabet (random i mod Str.len Text.alphabet))
      as (c & G & Hin).
    + apply Nat.mod_upper_bound. discriminate.
    + now rewrite G.
Qed.

(** ** commands/utils/files.py and the rsync commands of commands/base.py *)

Lemma endswith_append_l (s t suffix : string) :
  Str.endswith t suffix = true -> Str.endswith (s +++ t) suffix = true.
Proof.
  intros H. induction s as [|c s IH]; cbn; [exact H|].
  rewrite IH. apply orb_true_r.
Qed.

Lemma path_to_string_slash (is_dir : string -> bool) (path : string) :
  is_dir path = true ->
  Str.endswith (Files.path_to_string is_dir path) "/" = true.
Proof.
  intros D. unfold Files.path_to_string. rewrite D.
  destruct (Str.endswith path "/") eqn:E; cbn [andb negb];
    [exact E | apply endswith_append].
Qed.

Lemma path_to_string_remote_slash (path : string) (connection : Files.Remote) :
  Str.endswith (Files.path_to_string_remote path connection true) "/" = true.
Proof.
  unfold Files.path_to_string_remote.
  do 4 apply endswith_append_l.
  destruct (Str.endswith path "/") eqn:E; cbn [andb negb];
    [exact E | apply endswith_append].
Qed.


Lemma strip_prefix_app (prefix whole rest : list string) :
  Files.strip_prefix prefix whole = Some rest -> whole = prefix ++ rest.
Proof.
  revert whole. induction prefix as [|p prefix IH]; intros [|w whole] H;
    cbn in H; try discriminate.
  - now injection H as <-.
  - now injection H as <-.
  - destruct (String.eqb p w) eqn:E; [|discriminate].
    apply String.eqb_eq in E. subst w. cbn. f_equal. now apply IH.
Qed.

Lemma strip_prefix_self (l : list string) : Files.strip_prefix l l = Some [].
Proof.
  induction l as [|p l IH]; cbn; [reflexivity|]. now rewrite String.eqb_refl.
Qed.

Lemma updots_repeat (depth : Files.Path) :
  Files.updots depth
  = Files.mkPath false (repeat ".."%string (length (Files.parts depth))).
Proof.
  unfold Files.updots, Files.here.
  assert (F : forall (l : list string) acc,
             fold_left (fun target _ => Files.div target "..") l
                       (Files.mkPath false acc)
             = Files.mkPath false (acc ++ repeat ".."%string (length l))).
  { induction l as [|x l IH]; intros acc; cbn [fold_left length repeat].
    - now rewrite app_nil_r.
    - unfold Files.div at 2. cbn [Files.absolute Files.parts].
      rewrite IH, <- app_assoc. reflexivity. }
  apply (F (Files.parts depth) []).
Qed.


(** ** commands/project/base.py *)

Lemma strip_prefix_app_intro (prefix rest : list string) :
  Files.strip_prefix prefix (prefix ++ rest) = Some rest.
Proof.
  induction prefix as [|p prefix IH]; cbn; [reflexivity|].
  now rewrite String.eqb_refl.
Qed.

(** X16.  [get_project_name] answers a name exactly when the current folder
    lies strictly below the projects folder, and the name is the first part
    below it; the path [get_project_path] then returns is that folder of
    the projects folder, and the current folder is in it or below it. *)
Theorem project_holds_current_folder (base cwd : Files.Path) (name : string) :
  Project.get_project_name base cwd = Some name <->
  Files.absolute cwd = Files.absolute base /\
  exists below,
    Files.parts cwd = Files.parts base ++ name :: below /\
    Project.get_project_path base cwd = Some (Files.div base name) /\
    Files.relative_to cwd (Files.div base name)
    = Return (Files.mkPath false below).
Proof.
  unfold Project.get_project_path, Project.get_project_name, Files.relative_to.
  split.
  - destruct (Bool.eqb (Files.absolute cwd) (Files.absolute base)) eqn:A;
      [|discriminate].
    apply Bool.eqb_prop in A.
    destruct (Files.strip_prefix (Files.parts base) (Files.parts cwd))
      as [[|first below]|] eqn:S; try discriminate.
    cbn [Files.parts]. intros H. injection H as ->.
    apply strip_prefix_app in S. split; [exact A|].
    exists below. repeat split; auto.
    cbn [Files.div Files.absolute Files.parts].
    rewrite A, Bool.eqb_reflx, S.
    replace (Files.parts base ++ name :: below)
      with ((Files.parts base ++ [name]) ++ below)
      by now rewrite <- app_assoc.
    now rewrite strip_prefix_app_intro.
  - intros (A & below & P & _). rewrite A, Bool.eqb_reflx, P.
    now rewrite strip_prefix_app_intro.
Qed.

(** ** The first call of [next] *)

Section FirstNext.
Context {A R : Type}.
Variable sched : nat -> pick.

Abbreviation lgen := (generator A R (list A)).
Abbreviation lresume := (resume (@list_next A) sched).

(** From the head of the loop to the next answer no item is pulled. *)
Lemma resume_LoopHead_consumed fuel (g : lgen) :
  at_pc g = LoopHead -> 2 <= fuel ->
  consumed (snd (lresume fuel g)) = consumed g.
Proof.
  intros P Hf. destruct fuel as [|[|fuel]]; try lia.
  cbn [resume]. unfold step at 1. rewrite P.
  destruct (futures g) as [|x fs] eqn:F; [reflexivity|].
  destruct (wait_nonempty (sched (waits g)) x fs) as (y & d & nd & W).
  rewrite W. unfold step. cbn.
  destruct (function g (farg y)); reflexivity.
Qed.

(** Priming pulls items until the quota or the input is spent. *)
Lemma resume_Priming_consumed quota : forall fuel (g : lgen),
  at_pc g = Priming quota -> quota + 3 <= fuel ->
  consumed (snd (lresume fuel g))
  = consumed g + Nat.min quota (length (args g)).
Proof.
  induction quota as [|quota IH]; intros fuel g P Hf;
    (destruct fuel as [|fuel]; [lia|]); cbn [resume];
    unfold step at 1, islice_step; rewrite P.
  - rewrite resume_LoopHead_consumed; [cbn; lia | reflexivity | lia].
  - destruct (args g) as [|a rest] eqn:Ar; cbn [list_next].
    + rewrite resume_LoopHead_consumed; [cbn; lia | reflexivity | lia].
    + rewrite IH; [cbn; lia | reflexivity | lia].
Qed.

End FirstNext.

(** X17.  With num_threads >= 1 and a list of N inputs, the first call of
    [next] pulls and submits min(N, num_threads * 2) items before it
    answers, whatever the answer and the schedule. *)
Theorem first_next_primes_queue
    (A R : Type) (sched : nat -> pick) (n : Z) (function : A -> result R)
    (inputs : list A) :
  (1 <= n)%Z ->
  let g' := snd (next (@list_next A) sched
                      (threadpool_generator (Some n) function inputs)) in
  consumed g' = Nat.min (length inputs) (Z.to_nat (n * 2)) /\
  submitted g' = consumed g'.
Proof.
  intros Hn g'. split.
  - unfold g', next, budget. cbn [at_pc num_threads threadpool_generator].
    replace (Z.to_nat (n * 2) + 4) with (S (Z.to_nat (n * 2) + 3)) by lia.
    cbn [resume]. unfold step at 1. cbn [at_pc num_threads threadpool_generator].
    destruct (n <=? 0)%Z eqn:L; [lia|].
    rewrite (@resume_Priming_consumed A R sched (Z.to_nat (n * 2)));
      [cbn; lia | reflexivity | lia].
  - pose proof (reaches_next (@list_next A) sched
                  (threadpool_generator (Some n) function inputs)) as Re.
    pose proof (bounded_reaches Hn (bounded_start n function inputs) Re) as B.
    symmetry. apply B.
Qed.

Lemma first_next_primes_queue_witness :
  let g' := snd (next (@list_next nat) (fun round => mkPick 2 [0])
                      (threadpool_generator (Some 2%Z) (fun a => Return a)
                                            [1; 2; 3; 4; 5; 6; 7])) in
  consumed g' = Nat.min (length [1; 2; 3; 4; 5; 6; 7]) (Z.to_nat (2 * 2)) /\
  submitted g' = consumed g'.
Proof.
  apply (@first_next_primes_queue nat nat (fun round => mkPick 2 [0]) 2%Z
           (fun a => Return a) [1; 2; 3; 4; 5; 6; 7]).
  lia.
Defined.
